(** * A shallow embedding of [event_bus/bus.py]

    [EventBus] keeps one attribute, [_events], a [defaultdict(set)] from
    event names to sets of subscribed function objects.  The embedding
    follows the class method by method:

    - a function object is known to a set by its identity only, so the sets
      hold identities ([fid]) and a table gives each identity its
      [__name__] and its body;
    - the methods run in a small state-and-exception monad [M]: the state
      is the dictionary, the state of the embedding application and the
      trace of the calls that the methods made; an exception leaves the
      state as it was when it was raised;
    - a function that is called may use the bus itself.  What it does to
      the dictionary comes down to the three things that the methods of
      the bus do to it: a lookup, an addition to a stored set, and the
      binding of a new set to a name.  A body therefore yields, with its
      result and the state of the application, the list of these
      [mutation]s in the order in which it made them; the calls that a
      function makes on its own account are part of its body, and the
      trace holds the calls that the methods of the bus made for their
      caller;
    - [event_funcs] is a generator function, so it is modelled by a
      generator object with an explicit [gen_next].  A generator that has
      started shares the set it iterates with the dictionary: an addition
      made to that set is seen by the generator, which then fails as
      Python's set iterator does, while a new set bound to the name
      leaves the generator with the old one. *)

From stdpp Require Import gmap strings list fin_maps pretty.
From Stdlib Require Import ZArith.

Open Scope string_scope.
Open Scope list_scope.

(** ** Python values and exceptions *)

Inductive value : Type :=
  | VNone
  | VBool (b : bool)
  | VInt (z : Z)
  | VStr (s : string).

(** Identity of a function object ([id(func)]). *)
Abbreviation fid := positive.

Inductive exn : Type :=
  | KeyError (key : fid)          (* raised by [set.remove] *)
  | TypeError (msg : string)      (* raised by [set.add] *)
  | RuntimeError (msg : string)   (* raised by the iterator of a set *)
  | AppError (cls : string).      (* anything a subscriber raises *)

Inductive result (A : Type) : Type :=
  | Return (a : A)
  | Raise (x : exn).
Arguments Return {A} a.
Arguments Raise {A} x.

(** What can be given to [outer], the function that [on] returns: a
    function object, hashable by its identity, or a callable object of a
    type that is not hashable (a class with [__call__] and [__eq__] and
    without [__hash__]). *)
Inductive pyobject : Type :=
  | Function (func : fid)
  | Unhashable (type_name : string).

Coercion Function : positive >-> pyobject.

(** What the methods of the bus do to the dictionary. *)
Inductive mutation : Type :=
  | Lookup (key : string)              (* [self._events[key]] *)
  | Add (key : string) (func : fid)    (* [self._events[key].add(func)] *)
  | Store (key : string) (s : gset fid).   (* [self._events[key] = s] *)

Definition mutation_key (m : mutation) : string :=
  match m with
  | Lookup key | Add key _ | Store key _ => key
  end.

(** [Lookup]: a missing key is inserted with [set()].  [Add]: the set
    stored under the key gets the function, in place.  [Store]: the key is
    bound to a new set object. *)
Definition apply_mutation (m : mutation) (d : gmap string (gset fid))
    : gmap string (gset fid) :=
  match m with
  | Lookup key => <[key := default ∅ (d !! key)]> d
  | Add key func => <[key := default ∅ (d !! key) ∪ {[func]}]> d
  | Store key s => <[key := s]> d
  end.

Definition apply_all (ms : list mutation) (d : gmap string (gset fid))
    : gmap string (gset fid) :=
  foldl (λ d m, apply_mutation m d) d ms.

(** One call [func( *args, **kwargs)] made by a method of the bus: how it
    ended and what it did to the dictionary. *)
Record invocation : Type := Invocation {
  inv_func : fid;
  inv_args : list value;
  inv_kwargs : list (string * value);
  inv_result : result value;
  inv_effects : list mutation
}.

Definition effects_of (cs : list invocation) : list mutation :=
  concat (inv_effects <$> cs).

(** The set object that an iteration goes over, as the iteration sees it:
    whether the dictionary still holds it under the name, and its
    contents.  An addition under the name reaches it while the dictionary
    holds it; a new set bound to the name takes it out of the
    dictionary. *)
Definition alias_sees (name : string) (al : bool * gset fid) (m : mutation)
    : bool * gset fid :=
  match m with
  | Lookup _ => al
  | Add key func =>
      if decide (key = name)
      then (if al.1 then (true, al.2 ∪ {[func]}) else al)
      else al
  | Store key _ => if decide (key = name) then (false, al.2) else al
  end.

Definition alias_sees_all (name : string) (ms : list mutation)
    (al : bool * gset fid) : bool * gset fid :=
  foldl (alias_sees name) al ms.

(** The generator object of [event_funcs]: not yet started (holding its
    argument), suspended at [yield], or finished.  A suspended generator
    holds the iterator of the set: the set object itself ([bound] and
    [obj], see [alias_sees]), the size the set had when the iteration
    began, and what is still to come. *)
Inductive generator : Type :=
  | GenCreated (name : string)
  | GenSuspended (name : string) (bound : bool) (obj : gset fid)
      (size0 : nat) (rest : list fid)
  | GenDone.

(** What a mutation of the dictionary is to a generator. *)
Definition gen_sees (g : generator) (m : mutation) : generator :=
  match g with
  | GenSuspended name bound obj size0 rest =>
      let al := alias_sees name (bound, obj) m in
      GenSuspended name al.1 al.2 size0 rest
  | _ => g
  end.

Definition gen_sees_all (ms : list mutation) (g : generator) : generator :=
  foldl gen_sees g ms.

(** The [func_names] argument of [emit_only]: [Union[str, List[str]]]. *)
Inductive names_arg : Type :=
  | NamesStr (s : string)
  | NamesList (l : list string).

Section bus.

(** The state of the embedding application, on which subscribers act. *)
Context {App : Type}.

(** How a call of a function ends: its result, the state of the
    application, and what it did to the dictionary of the bus. *)
Record outcome : Type := Outcome {
  out_result : result value;
  out_app : App;
  out_effects : list mutation
}.

(** A function object: its [__name__] and what calling it does, given the
    arguments, the dictionary of the bus and the state of the
    application. *)
Record callable : Type := Callable {
  name : string;
  body : list value → list (string * value) →
         gmap string (gset fid) → App → outcome
}.

(** The function objects of the program, by identity. *)
Variable funcs : fid → callable.

Record world : Type := World {
  _events : gmap string (gset fid);    (* [self._events] *)
  app_state : App;
  trace : list invocation
}.

Definition set_events (m : gmap string (gset fid)) (w : world) : world :=
  {| _events := m; app_state := app_state w; trace := trace w |}.

(** [EventBus.__init__]: [self._events = defaultdict(set)]. *)
Definition init (a : App) : world :=
  {| _events := ∅; app_state := a; trace := [] |}.

(** The calls made between two states of one run. *)
Definition new_calls (w w' : world) : list invocation :=
  drop (length (trace w)) (trace w').

(** ** The monad of the methods *)

Definition M (A : Type) : Type := world → result A * world.

Definition ret {A} (a : A) : M A := λ w, (Return a, w).

Definition raise {A} (x : exn) : M A := λ w, (Raise x, w).

Definition bind {A B} (m : M A) (k : A → M B) : M B :=
  λ w, match m w with
       | (Return a, w') => k a w'
       | (Raise x, w') => (Raise x, w')
       end.

Definition lift {A} (r : result A) : M A := λ w, (r, w).

(** [m], and with its value what the calls made by [m] did to the
    dictionary. *)
Definition observed {A} (m : M A) : M (A * list mutation) :=
  λ w, match m w with
       | (Return a, w') => (Return (a, effects_of (new_calls w w')), w')
       | (Raise x, w') => (Raise x, w')
       end.

Notation "x <- c1 ;; c2" := (bind c1 (λ x, c2))
  (at level 100, c1 at next level, right associativity).
Notation "c1 ;;; c2" := (bind c1 (λ _, c2))
  (at level 100, right associativity).

(** ** Primitives of the Python runtime *)

(** [func( *args, **kwargs)]. *)
Definition call (func : fid) (args : list value)
    (kwargs : list (string * value)) : M value :=
  λ w, let o := body (funcs func) args kwargs (_events w) (app_state w) in
       (out_result o,
        {| _events := apply_all (out_effects o) (_events w);
           app_state := out_app o;
           trace := trace w ++
             [Invocation func args kwargs (out_result o) (out_effects o)] |}).

(** [self._events[key]] on a [defaultdict(set)]: a missing key is inserted
    with [set()] and that empty set is the value. *)
Definition getitem (key : string) : M (gset fid) :=
  λ w, match _events w !! key with
       | Some s => (Return s, w)
       | None => (Return ∅, set_events (<[key := ∅]> (_events w)) w)
       end.

(** [self._events[key] = s]. *)
Definition setitem (key : string) (s : gset fid) : M unit :=
  λ w, (Return tt, set_events (<[key := s]> (_events w)) w).

(** [s.add(c)] on the set [s] that [self._events[key]] gave: [TypeError]
    when [c] is not hashable, else the function is added to the stored
    set, in place.  The value is the function object that is now in the
    set. *)
Definition set_add (key : string) (s : gset fid) (c : pyobject) : M fid :=
  match c with
  | Function func => setitem key (s ∪ {[func]}) ;;; ret func
  | Unhashable type_name =>
      raise (TypeError ("unhashable type: '" +:+ type_name +:+ "'"))
  end.

(** The order in which a set yields its elements; Python leaves it
    unspecified, and the theorems below do not depend on it. *)
Definition set_iter (s : gset fid) : list fid := elements s.

(** [s.remove(func)]: [KeyError] when [func] is not in [s]. *)
Definition set_remove (func : fid) (s : gset fid) : result (gset fid) :=
  if decide (func ∈ s) then Return (s ∖ {[func]})
  else Raise (KeyError func).

(** ** Generators *)

(** [EventBus.event_funcs]: calling a generator function runs none of its
    body, it only makes the generator object. *)
Definition event_funcs (name : string) : M generator :=
  ret (GenCreated name).

Definition changed_size : exn :=
  RuntimeError "Set changed size during iteration".

(** The iterator of a set: it fails when the size of the set is not what
    it was when the iteration began, else it gives the next element. *)
Definition iter_next (name : string) (bound : bool) (obj : gset fid)
    (size0 : nat) (rest : list fid) : M (option fid * generator) :=
  if decide (size obj = size0)
  then match rest with
       | [] => ret (None, GenDone)
       | func :: rest => ret (Some func, GenSuspended name bound obj size0 rest)
       end
  else raise changed_size.

(** [next(g)]: [None] stands for [StopIteration].  The first [next] enters
    the body, evaluates [self._events[name]] and starts to iterate the set
    it gets. *)
Definition gen_next (g : generator) : M (option fid * generator) :=
  match g with
  | GenCreated name =>
      s <- getitem name ;;
      iter_next name true s (size s) (set_iter s)
  | GenSuspended name bound obj size0 rest =>
      iter_next name bound obj size0 rest
  | GenDone => ret (None, GenDone)
  end.

(** [for func in ...: acc = body(func, acc)] over the iterator of a set,
    [acc] standing for the local variables of the loop.  Between two
    elements the set is what the calls made by the body have left of
    it. *)
Fixpoint iterate {A} (name : string) (bound : bool) (obj : gset fid)
    (size0 : nat) (rest : list fid) (acc : A) (body : fid → A → M A)
    : M A :=
  if decide (size obj = size0)
  then match rest with
       | [] => ret acc
       | func :: rest =>
           r <- observed (body func acc) ;;
           let al := alias_sees_all name r.2 (bound, obj) in
           iterate name al.1 al.2 size0 rest r.1 body
       end
  else raise changed_size.

(** [for func in g: ...] over a generator of [event_funcs]. *)
Definition for_in {A} (g : generator) (acc : A) (body : fid → A → M A)
    : M A :=
  match g with
  | GenCreated name =>
      s <- getitem name ;;
      iterate name true s (size s) (set_iter s) acc body
  | GenSuspended name bound obj size0 rest =>
      iterate name bound obj size0 rest acc body
  | GenDone => ret acc
  end.

(** ** The methods of [EventBus] *)

(** What [functools.wraps(func)] leaves on the wrapper: the [__name__] of
    [func] and [__wrapped__], the wrapped function itself. *)
Record wrapper : Type := Wrapper {
  wr_name : string;
  wr_wrapped : fid;
  wr_call : list value → list (string * value) → M value
}.

Definition wraps (func : fid)
    (f : list value → list (string * value) → M value) : wrapper :=
  {| wr_name := name (funcs func); wr_wrapped := func; wr_call := f |}.

(** [EventBus.on]; [on event] is [outer]. *)
Definition on (event : string) : pyobject → M wrapper :=
  λ c,
    s <- getitem event ;;
    func <- set_add event s c ;;               (* [.add(func)] *)
    ret (wraps func (λ args kwargs, call func args kwargs)).

(** [EventBus.emit]. *)
Definition emit (event : string) (args : list value)
    (kwargs : list (string * value)) : M unit :=
  g <- event_funcs event ;;
  for_in g tt (λ func _, call func args kwargs ;;; ret tt).

(** [if isinstance(func_names, str): func_names = [func_names]]. *)
Definition normalize_names (func_names : names_arg) : list string :=
  match func_names with
  | NamesStr s => [s]
  | NamesList l => l
  end.

(** [EventBus.emit_only]. *)
Definition emit_only (event : string) (func_names : names_arg)
    (args : list value) (kwargs : list (string * value)) : M unit :=
  let func_names := normalize_names func_names in
  g <- event_funcs event ;;
  for_in g tt (λ func _,
    if bool_decide (name (funcs func) ∈ func_names)
    then call func args kwargs ;;; ret tt
    else ret tt).

(** [EventBus.emit_after]; [emit_after event] is [outer]. *)
Definition emit_after (event : string) : fid → wrapper :=
  λ func,
    wraps func (λ args kwargs,
      returned <- call func args kwargs ;;
      emit event [] [] ;;;
      ret returned).

(** [EventBus.event_func_names]. *)
Definition event_func_names (name_ : string) : M (list string) :=
  s <- getitem name_ ;;
  ret ((λ func, name (funcs func)) <$> set_iter s).

(** [EventBus.subscribed_event_count]; [event_counter] is the [Counter]. *)
Definition subscribed_event_count : M nat :=
  λ w,
    let event_counter : gmap string nat :=
      foldl (λ c kv, <[kv.1 := size kv.2]> c) ∅ (map_to_list (_events w)) in
    (Return (sum_list (snd <$> map_to_list event_counter)), w).

(** The property [event_count]. *)
Definition event_count : M nat := subscribed_event_count.

(** [EventBus.remove_subscriber]. *)
Definition remove_subscriber (event : string) (func_name : string)
    : M unit :=
  s <- getitem event ;;
  let event_funcs_copy := s in                  (* [.copy()] *)
  g <- event_funcs event ;;
  event_funcs_copy <- for_in g event_funcs_copy (λ func copy,
    if bool_decide (name (funcs func) = func_name)
    then lift (set_remove func copy)
    else ret copy) ;;
  setitem event event_funcs_copy.

(** [EventBus._cls_name]: [self.__class__.__name__].  [cls] is the name of
    the class of the instance, ["EventBus"] unless the bus is an instance
    of a subclass. *)
Definition _cls_name (cls : string) : M string := ret cls.

(** [EventBus.__repr__]: ["<{}: {}>".format(self._cls_name(),
    self.event_count)]. *)
Definition __repr__ (cls : string) : M string :=
  c <- _cls_name cls ;;
  n <- event_count ;;
  ret ("<" +:+ c +:+ ": " +:+ pretty n +:+ ">").

(** [EventBus.__str__]: ["{} subscribed events".format(self.event_count)]. *)
Definition __str__ : M string :=
  n <- event_count ;;
  ret (pretty n +:+ " subscribed events").

End bus.

Notation "x <- c1 ;; c2" := (bind c1 (λ x, c2))
  (at level 100, c1 at next level, right associativity).
Notation "c1 ;;; c2" := (bind c1 (λ _, c2))
  (at level 100, right associativity).

Arguments outcome : clear implicits.
Arguments callable : clear implicits.
Arguments world : clear implicits.
Arguments wrapper : clear implicits.
Arguments M : clear implicits.

(** ** Vocabulary of the statements *)

(** The subscriber set of an event as a reader sees it: the stored set, or
    the empty set that a lookup would create. *)
Definition subscribers {App} (w : world App) (event : string) : gset fid :=
  default ∅ (_events w !! event).

(** How many of the calls [cs] are calls of [func]. *)
Definition times_called (func : fid) (cs : list invocation) : nat :=
  length (filter (λ i, inv_func i = func) cs).

(** The call [i] was given [args] and [kwargs]. *)
Definition passed (args : list value) (kwargs : list (string * value))
    (i : invocation) : Prop :=
  inv_args i = args ∧ inv_kwargs i = kwargs.

(** The calls [cs] are one call of each member of [fs], and of nothing
    else, all with the arguments [args] and [kwargs]. *)
Definition invoked_once_each (fs : gset fid) (args : list value)
    (kwargs : list (string * value)) (cs : list invocation) : Prop :=
  (∀ func, times_called func cs = if decide (func ∈ fs) then 1 else 0)
  ∧ Forall (passed args kwargs) cs.

(** The calls [cs] are what the bodies of the functions do: made one
    after the other from the dictionary [d] and the application state [a],
    each call has the result and the effects of the body of its function
    on the state that the call before it left, and the last one leaves
    [d'] and [a']. *)
Inductive ran_from {App} (funcs : fid → callable App)
    : gmap string (gset fid) → App → list invocation →
      gmap string (gset fid) → App → Prop :=
  | ran_nil d a : ran_from funcs d a [] d a
  | ran_cons d a i cs d' a' :
      inv_result i
        = out_result (body (funcs (inv_func i)) (inv_args i) (inv_kwargs i)
                        d a) →
      inv_effects i
        = out_effects (body (funcs (inv_func i)) (inv_args i) (inv_kwargs i)
                         d a) →
      ran_from funcs
        (apply_all (inv_effects i) d)
        (out_app (body (funcs (inv_func i)) (inv_args i) (inv_kwargs i)
                    d a))
        cs d' a' →
      ran_from funcs d a (i :: cs) d' a'.

(** [func] never raises when it is called with these arguments. *)
Definition never_raises {App} (funcs : fid → callable App) (func : fid)
    (args : list value) (kwargs : list (string * value)) : Prop :=
  ∀ d a, ∃ v, out_result (body (funcs func) args kwargs d a) = Return v.

(** [func], called with these arguments, never adds a function to a set
    stored under [event]: it does not subscribe to [event]. *)
Definition never_adds_to {App} (funcs : fid → callable App) (func : fid)
    (args : list value) (kwargs : list (string * value)) (event : string)
    : Prop :=
  ∀ d a g, ¬ (Add event g ∈ out_effects (body (funcs func) args kwargs d a)).

(** [func], called with these arguments, leaves the bus alone. *)
Definition never_uses_bus {App} (funcs : fid → callable App) (func : fid)
    (args : list value) (kwargs : list (string * value)) : Prop :=
  ∀ d a, out_effects (body (funcs func) args kwargs d a) = [].

(** The set that was stored under [event], with contents [s], when an
    iteration over it began, as the calls [cs] have left that set object. *)
Definition iterated_set (event : string) (s : gset fid)
    (cs : list invocation) : gset fid :=
  (alias_sees_all event (effects_of cs) (true, s)).2.

(** The event names in the effects of the calls [cs]. *)
Definition touched (cs : list invocation) : gset string :=
  list_to_set (mutation_key <$> effects_of cs).

(** [later] comes after [func] in the list [l]. *)
Definition after {A} (l : list A) (func later : A) : Prop :=
  ∃ pre post, l = pre ++ func :: post ∧ later ∈ post.

(** The state a lookup of [key] leaves: the entry of [key] exists. *)
Definition vivify {App} (key : string) (w : world App) : world App :=
  set_events (<[key := subscribers w key]> (_events w)) w.

(** The body of the loops of [emit] and [emit_only]: call [func] when the
    test [P] lets it through. *)
Definition guarded_call {App} (funcs : fid → callable App) (P : fid → bool)
    (args : list value) (kwargs : list (string * value))
    : fid → unit → M App unit :=
  λ func _, if P func then call funcs func args kwargs ;;; ret tt else ret tt.

(** The body of the loop of [remove_subscriber]. *)
Definition remove_named {App} (funcs : fid → callable App)
    (func_name : string) : fid → gset fid → M App (gset fid) :=
  λ func copy,
    if bool_decide (name (funcs func) = func_name)
    then lift (set_remove func copy)
    else ret copy.

(** The functions of a set that are not called [func_name]. *)
Definition not_named {App} (funcs : fid → callable App) (func_name : string)
    (s : gset fid) : gset fid :=
  filter (λ func, name (funcs func) ≠ func_name) s.

Definition is_return {A} (r : result A) : Prop :=
  match r with Return _ => True | Raise _ => False end.

(** How a loop of guarded calls over [rest] can end, [al] being the set
    object it iterates and [size0] the size that the iterator expects.
    It returns after one returning call of each function that passes the
    test, the set still of its size; or it raises [x] at the first call
    that raises, the functions after it left alone; or the iterator finds
    that the set has changed size, after calls that all returned. *)
Definition loop_outcome (P : fid → bool) (name : string)
    (al : bool * gset fid) (size0 : nat) (rest : list fid)
    (r : result unit) (cs : list invocation) : Prop :=
  match r with
  | Return _ =>
      inv_func <$> cs = filter (λ func, P func) rest
      ∧ Forall (λ i, is_return (inv_result i)) cs
      ∧ size (alias_sees_all name (effects_of cs) al).2 = size0
  | Raise x =>
      (∃ pre func post cs0 i,
         rest = pre ++ func :: post ∧ P func = true
         ∧ cs = cs0 ++ [i]
         ∧ inv_func <$> cs0 = filter (λ func, P func) pre
         ∧ Forall (λ i, is_return (inv_result i)) cs0
         ∧ inv_func i = func ∧ inv_result i = Raise x)
      ∨ (x = changed_size
         ∧ (∃ pre post,
              rest = pre ++ post
              ∧ inv_func <$> cs = filter (λ func, P func) pre)
         ∧ Forall (λ i, is_return (inv_result i)) cs
         ∧ size (alias_sees_all name (effects_of cs) al).2 ≠ size0)
  end.

(** [out = []], then [for func in g: out.append(func)]: what a client
    gets by running a generator of [event_funcs] to its end. *)
Definition collect {App} (g : generator) : M App (list fid) :=
  for_in g [] (λ func out, ret (out ++ [func])).

(** ** Histories of a bus *)

(** What a client can do with a bus. *)
Inductive op : Type :=
  | OpOn (event : string) (c : pyobject)
  | OpEmit (event : string) (args : list value)
      (kwargs : list (string * value))
  | OpEmitOnly (event : string) (func_names : names_arg)
      (args : list value) (kwargs : list (string * value))
  | OpCallAfter (event : string) (func : fid) (args : list value)
      (kwargs : list (string * value))
  | OpEventFuncs (name : string) (nexts : nat)
  | OpEventFuncNames (name : string)
  | OpCount
  | OpRemove (event : string) (func_name : string).

(** [next] applied [n] times. *)
Fixpoint advance {App} (n : nat) (g : generator) : M App generator :=
  match n with
  | 0 => ret g
  | S n' => r <- gen_next g ;; advance n' r.2
  end.

(** The state an operation leaves, whether it returned or raised. *)
Definition exec {App} (funcs : fid → callable App) (o : op)
    (w : world App) : world App :=
  match o with
  | OpOn event c => (on funcs event c w).2
  | OpEmit event args kwargs => (emit funcs event args kwargs w).2
  | OpEmitOnly event func_names args kwargs =>
      (emit_only funcs event func_names args kwargs w).2
  | OpCallAfter event func args kwargs =>
      (wr_call (emit_after funcs event func) args kwargs w).2
  | OpEventFuncs name nexts =>
      ((g <- event_funcs name ;; advance nexts g) w).2
  | OpEventFuncNames name => (event_func_names funcs name w).2
  | OpCount => (subscribed_event_count w).2
  | OpRemove event func_name => (remove_subscriber funcs event func_name w).2
  end.

Definition run {App} (funcs : fid → callable App) (ops : list op)
    (w : world App) : world App :=
  foldl (λ w o, exec funcs o w) w ops.

(** The event names a history has named. *)
Definition op_names (o : op) : gset string :=
  match o with
  | OpOn event _ | OpEmit event _ _ | OpEmitOnly event _ _ _
  | OpCallAfter event _ _ _ | OpRemove event _ => {[event]}
  | OpEventFuncs name _ | OpEventFuncNames name => {[name]}
  | OpCount => ∅
  end.

Definition accessed (ops : list op) : gset string :=
  ⋃ (op_names <$> ops).

(** The operations other than [on] and [remove_subscriber]. *)
Definition is_read (o : op) : bool :=
  match o with
  | OpOn _ _ | OpRemove _ _ => false
  | _ => true
  end.

(** The sizes of the subscriber sets of the event names in [names], added
    up; a name without an entry counts for its empty set. *)
Definition sum_of_sizes {App} (w : world App) (names : gset string) : nat :=
  sum_list ((λ event, size (subscribers w event)) <$> elements names).

(** ** A small application

    The state is a counter.  [inc] adds one to it, [log] returns it, [boom]
    raises, the two functions called [adder], when called, subscribe
    function object 4 to ["tick"] as [bus.on("tick")] does, and [remover]
    removes [log] from ["tick"] as [bus.remove_subscriber("tick", "log")]
    does; every other function object is a second [inc] that adds two. *)
Definition demo_funcs : fid → callable nat :=
  λ func,
    match func with
    | 1%positive => Callable "inc" (λ _ _ _ n, Outcome (Return VNone) (S n) [])
    | 2%positive =>
        Callable "log" (λ _ _ _ n, Outcome (Return (VInt (Z.of_nat n))) n [])
    | 3%positive =>
        Callable "boom"
          (λ _ _ _ n, Outcome (Raise (AppError "ValueError")) n [])
    | 5%positive | 6%positive =>
        Callable "adder"
          (λ _ _ _ n,
             Outcome (Return VNone) n [Lookup "tick"; Add "tick" 4%positive])
    | 7%positive =>
        Callable "remover"
          (λ _ _ d n,
             Outcome (Return VNone) n
               [Lookup "tick";
                Store "tick"
                  (filter (λ g, g ≠ 2%positive) (default ∅ (d !! "tick")))])
    | _ => Callable "inc" (λ _ _ _ n, Outcome (Return VNone) (S (S n)) [])
    end.

(** A bus with [inc] and [log] subscribed to ["tick"]. *)
Definition demo_bus : world nat :=
  run demo_funcs [OpOn "tick" 1%positive; OpOn "tick" 2%positive] (init 0).

(** A bus with [inc], [log] and [boom] subscribed to ["tick"]. *)
Definition boom_bus : world nat :=
  run demo_funcs [OpOn "tick" 3%positive] demo_bus.

(** A bus with the two functions called [adder] subscribed to ["tick"]. *)
Definition adders_bus : world nat :=
  run demo_funcs [OpOn "tick" 5%positive; OpOn "tick" 6%positive] (init 0).

(** A bus with [inc], [log] and [remover] subscribed to ["tick"]. *)
Definition remover_bus : world nat :=
  run demo_funcs [OpOn "tick" 7%positive] demo_bus.

Section facts.

Context {App : Type} (funcs : fid → callable App).

Implicit Types (w : world App) (event key : string) (func : fid).
Implicit Types (args : list value) (kwargs : list (string * value)).
Implicit Types (cs : list invocation) (d : gmap string (gset fid)).
Implicit Types (ms : list mutation) (al : bool * gset fid).

(** ** The dictionary *)

Lemma new_calls_app w w' cs : trace w' = trace w ++ cs → new_calls w w' = cs.
Proof. unfold new_calls. intros ->. by rewrite drop_app_length. Qed.

Lemma new_calls_same w : new_calls w w = [].
Proof. apply new_calls_app. by rewrite app_nil_r. Qed.

Lemma vivify_present key w s : _events w !! key = Some s → vivify key w = w.
Proof.
  intros Hs. destruct w as [m a t]. unfold vivify, subscribers, set_events.
  simpl in *. by rewrite Hs, insert_id.
Qed.

Lemma vivify_absent key w :
  _events w !! key = None →
  vivify key w = set_events (<[key := ∅]> (_events w)) w.
Proof. intros Hs. unfold vivify, subscribers. by rewrite Hs. Qed.

Lemma vivify_events key w :
  _events (vivify key w) = <[key := subscribers w key]> (_events w).
Proof. done. Qed.

Lemma vivify_lookup key w :
  _events (vivify key w) !! key = Some (subscribers w key).
Proof. rewrite vivify_events. apply lookup_insert_eq. Qed.

Lemma vivify_lookup_ne key key' w :
  key ≠ key' → _events (vivify key w) !! key' = _events w !! key'.
Proof. intros. rewrite vivify_events. by apply lookup_insert_ne. Qed.

Lemma vivify_subscribers key w event :
  subscribers (vivify key w) event = subscribers w event.
Proof.
  unfold subscribers at 1. destruct (decide (key = event)) as [->|Hne].
  - by rewrite vivify_lookup.
  - by rewrite vivify_lookup_ne.
Qed.

Lemma vivify_dom key w :
  dom (_events (vivify key w)) = {[key]} ∪ dom (_events w).
Proof. rewrite vivify_events. apply dom_insert_L. Qed.

Lemma vivify_trace key w : trace (vivify key w) = trace w.
Proof. done. Qed.


Lemma vivify_as_lookup key w :
  _events (vivify key w) = apply_mutation (Lookup key) (_events w).
Proof. done. Qed.

Lemma getitem_spec key w :
  getitem key w = (Return (subscribers w key), vivify key w).
Proof.
  unfold getitem. destruct (_events w !! key) as [s|] eqn:Hs.
  - rewrite (vivify_present _ _ _ Hs). unfold subscribers. by rewrite Hs.
  - rewrite (vivify_absent _ _ Hs). unfold subscribers. by rewrite Hs.
Qed.

(** ** Mutations *)

Lemma apply_all_app ms1 ms2 d :
  apply_all (ms1 ++ ms2) d = apply_all ms2 (apply_all ms1 d).
Proof. apply foldl_app. Qed.

Lemma dom_apply_mutation (m : mutation) d :
  dom (apply_mutation m d) = {[mutation_key m]} ∪ dom d.
Proof. destruct m; simpl; apply dom_insert_L. Qed.

Lemma dom_apply_all ms d :
  dom (apply_all ms d) = list_to_set (mutation_key <$> ms) ∪ dom d.
Proof.
  revert d. induction ms as [|m ms IH]; intros d.
  - simpl. apply set_eq. intros e. rewrite elem_of_union, elem_of_empty.
    tauto.
  - change (apply_all (m :: ms) d) with (apply_all ms (apply_mutation m d)).
    rewrite IH, dom_apply_mutation, fmap_cons, list_to_set_cons.
    apply set_eq. intros e. rewrite !elem_of_union. tauto.
Qed.

Lemma effects_of_app cs1 cs2 :
  effects_of (cs1 ++ cs2) = effects_of cs1 ++ effects_of cs2.
Proof. unfold effects_of. by rewrite fmap_app, concat_app. Qed.

Lemma effects_of_cons (i : invocation) cs :
  effects_of (i :: cs) = inv_effects i ++ effects_of cs.
Proof. done. Qed.

Lemma touched_app cs1 cs2 : touched (cs1 ++ cs2) = touched cs1 ∪ touched cs2.
Proof.
  unfold touched. by rewrite effects_of_app, fmap_app, list_to_set_app_L.
Qed.

Lemma alias_sees_all_app name ms1 ms2 al :
  alias_sees_all name (ms1 ++ ms2) al
    = alias_sees_all name ms2 (alias_sees_all name ms1 al).
Proof. apply foldl_app. Qed.

(** A set only grows under the eyes of an iteration. *)
Lemma alias_sees_grows name al (m : mutation) :
  al.2 ⊆ (alias_sees name al m).2.
Proof.
  destruct m as [key|key func|key s]; simpl; [done|..].
  - destruct (decide (key = name)); [|done].
    destruct al.1; [|done]. simpl. intros g Hg. by apply elem_of_union_l.
  - by destruct (decide (key = name)).
Qed.

Lemma alias_sees_all_grows name ms al :
  al.2 ⊆ (alias_sees_all name ms al).2.
Proof.
  revert al. induction ms as [|m ms IH]; intros al; [done|].
  etrans; [apply (alias_sees_grows name al m)|apply IH].
Qed.

Lemma alias_size_grows name ms al :
  (size al.2 ≤ size (alias_sees_all name ms al).2)%nat.
Proof. apply subseteq_size, alias_sees_all_grows. Qed.

(** Without an addition under the name the set stays as it is. *)
Lemma alias_sees_all_no_add name ms al :
  (∀ g, ¬ (Add name g ∈ ms)) → (alias_sees_all name ms al).2 = al.2.
Proof.
  revert al. induction ms as [|m ms IH]; intros al Hno; [done|].
  change (alias_sees_all name (m :: ms) al)
    with (alias_sees_all name ms (alias_sees name al m)).
  rewrite IH by (intros g Hg; apply (Hno g); by right).
  destruct m as [key|key func|key s]; simpl; [done|..].
  - destruct (decide (key = name)) as [->|]; [|done].
    exfalso. apply (Hno func). left.
  - by destruct (decide (key = name)).
Qed.

(** ** Calls and loops *)

Lemma observed_ret {A} (a : A) w :
  observed (ret a) w = (Return (a, []), w).
Proof. unfold observed, ret. by rewrite new_calls_same. Qed.

Lemma call_spec func args kwargs w :
  call funcs func args kwargs w =
    (out_result (body (funcs func) args kwargs (_events w) (app_state w)),
     {| _events :=
          apply_all
            (out_effects (body (funcs func) args kwargs (_events w)
                            (app_state w)))
            (_events w);
        app_state :=
          out_app (body (funcs func) args kwargs (_events w) (app_state w));
        trace := trace w ++
          [Invocation func args kwargs
             (out_result (body (funcs func) args kwargs (_events w)
                            (app_state w)))
             (out_effects (body (funcs func) args kwargs (_events w)
                             (app_state w)))] |}).
Proof. done. Qed.

Lemma call_trace func args kwargs w :
  new_calls w (call funcs func args kwargs w).2
    = [Invocation func args kwargs
         (out_result (body (funcs func) args kwargs (_events w)
                        (app_state w)))
         (out_effects (body (funcs func) args kwargs (_events w)
                         (app_state w)))].
Proof. by apply new_calls_app. Qed.

Lemma iterate_guarded_nil P name bound (obj : gset fid) size0 args kwargs w :
  iterate name bound obj size0 [] tt (guarded_call funcs P args kwargs) w =
    if decide (size obj = size0) then (Return tt, w)
    else (Raise changed_size, w).
Proof. simpl. by destruct (decide _). Qed.

Lemma iterate_guarded_cons P name bound (obj : gset fid) size0 args kwargs
    func (rest : list fid) w :
  iterate name bound obj size0 (func :: rest) tt
    (guarded_call funcs P args kwargs) w =
  if decide (size obj = size0)
  then
    if P func
    then
      match call funcs func args kwargs w with
      | (Return _, w1) =>
          let al := alias_sees_all name
                      (out_effects (body (funcs func) args kwargs
                                      (_events w) (app_state w)))
                      (bound, obj) in
          iterate name al.1 al.2 size0 rest tt
            (guarded_call funcs P args kwargs) w1
      | (Raise x, w1) => (Raise x, w1)
      end
    else iterate name bound obj size0 rest tt
           (guarded_call funcs P args kwargs) w
  else (Raise changed_size, w).
Proof.
  cbn [iterate]. destruct (decide (size obj = size0)); [|done].
  unfold bind at 1. unfold guarded_call at 1.
  destruct (P func); [|by rewrite observed_ret].
  unfold observed, bind at 1. rewrite call_spec.
  set (o := body (funcs func) args kwargs (_events w) (app_state w)).
  destruct (out_result o) as [v|x]; [|done].
  unfold ret at 1. rewrite (new_calls_app _ _ [_]) by done.
  unfold effects_of. simpl. by rewrite app_nil_r.
Qed.

Lemma alias_pair name ms al :
  alias_sees_all name ms (al.1, al.2) = alias_sees_all name ms al.
Proof. by destruct al. Qed.

(** What a loop of guarded calls does, whatever the functions do. *)
Lemma guarded_loop P name args kwargs (rest : list fid) al size0 w :
  ∃ cs,
    trace (iterate name al.1 al.2 size0 rest tt
             (guarded_call funcs P args kwargs) w).2 = trace w ++ cs
    ∧ ran_from funcs (_events w) (app_state w) cs
        (_events (iterate name al.1 al.2 size0 rest tt
                    (guarded_call funcs P args kwargs) w).2)
        (app_state (iterate name al.1 al.2 size0 rest tt
                      (guarded_call funcs P args kwargs) w).2)
    ∧ Forall (passed args kwargs) cs
    ∧ loop_outcome P name al size0 rest
        (iterate name al.1 al.2 size0 rest tt
           (guarded_call funcs P args kwargs) w).1 cs.
Proof.
  revert al w. induction rest as [|func rest IH]; intros al w.
  { rewrite iterate_guarded_nil. exists [].
    destruct (decide (size al.2 = size0)) as [Hsize|Hsize]; simpl.
    - rewrite app_nil_r. repeat split; try done; by constructor.
    - rewrite app_nil_r. split; [done|]. split; [constructor|].
      split; [done|]. right. split; [done|].
      split; [by exists [], []|]. by split. }
  rewrite iterate_guarded_cons.
  destruct (decide (size al.2 = size0)) as [Hsize|Hsize].
  2: { exists []. simpl. rewrite app_nil_r. split; [done|].
       split; [constructor|]. split; [done|]. right. split; [done|].
       split; [by exists [], (func :: rest)|]. by split. }
  destruct (P func) eqn:HP.
  - rewrite call_spec.
    set (o := body (funcs func) args kwargs (_events w) (app_state w)).
    destruct (out_result o) as [v|x] eqn:Ho.
    + (* the call returned: the loop goes on *)
      cbv zeta. rewrite alias_pair.
      set (al' := alias_sees_all name (out_effects o) al).
      set (w1 := World _ _ _).
      set (i := Invocation func args kwargs (Return v) (out_effects o)).
      destruct (IH al' w1) as (cs & Htr & Hran & Hargs & Hout).
      exists (i :: cs).
      split; [rewrite Htr; simpl; by rewrite <-app_assoc|].
      split; [by apply ran_cons|].
      split; [by constructor|].
      destruct (iterate _ _ _ _ _ _ _ w1).1 as [u|x].
      * destruct Hout as (Hfs & Hret & Hal). split; [|split].
        -- rewrite fmap_cons, Hfs. simpl.
           by rewrite filter_cons_True by (by rewrite HP).
        -- by constructor.
        -- by rewrite effects_of_cons, alias_sees_all_app.
      * destruct Hout
          as [(pre & g & post & cs0 & j & -> & Hg & -> & H0 & Hr & Hj & Hx)
             |(-> & (pre & post & -> & Hpre) & Hret & Hal)].
        -- left. exists (func :: pre), g, post, (i :: cs0), j.
           repeat split; try done.
           ++ rewrite fmap_cons, H0. simpl.
              by rewrite filter_cons_True by (by rewrite HP).
           ++ by constructor.
        -- right. split; [done|]. split; [|split].
           ++ exists (func :: pre), post. split; [done|].
              rewrite fmap_cons, Hpre. simpl.
              by rewrite filter_cons_True by (by rewrite HP).
           ++ by constructor.
           ++ by rewrite effects_of_cons, alias_sees_all_app.
    + (* the call raised: the loop is left *)
      exists [Invocation func args kwargs (Raise x) (out_effects o)].
      split; [done|]. split.
      { apply ran_cons; simpl; [done..|]. fold o. constructor. }
      split; [by repeat constructor|]. left.
      exists [], func, rest, [],
        (Invocation func args kwargs (Raise x) (out_effects o)).
      by repeat split.
  - (* the test keeps [func] from being called *)
    destruct (IH al w) as (cs & Htr & Hran & Hargs & Hout).
    exists cs. split; [done|]. split; [done|]. split; [done|].
    destruct (iterate _ _ _ _ _ _ _ w).1 as [u|x].
    + destruct Hout as (Hfs & Hret & Hal). split; [|done].
      by rewrite filter_cons_False by (rewrite HP; auto).
    + destruct Hout
        as [(pre & g & post & cs0 & j & -> & Hg & -> & H0 & Hr & Hj & Hx)
           |(-> & (pre & post & -> & Hpre) & Hret & Hal)].
      * left. exists (func :: pre), g, post, cs0, j.
        repeat split; try done.
        by rewrite filter_cons_False by (rewrite HP; auto).
      * right. split; [done|]. split; [|done].
        exists (func :: pre), post. split; [done|].
        by rewrite filter_cons_False by (rewrite HP; auto).
Qed.

(** The loop returns when the functions it calls neither raise nor add
    to the set it iterates. *)
Lemma guarded_loop_returns P name args kwargs (rest : list fid) al w :
  (∀ func, func ∈ rest → P func = true →
     never_raises funcs func args kwargs
     ∧ never_adds_to funcs func args kwargs name) →
  (iterate name al.1 al.2 (size al.2) rest tt
     (guarded_call funcs P args kwargs) w).1 = Return tt.
Proof.
  revert al w. induction rest as [|func rest IH]; intros al w Hok.
  { rewrite iterate_guarded_nil. by rewrite decide_True. }
  rewrite iterate_guarded_cons, decide_True by done.
  assert (∀ g, g ∈ rest → P g = true →
            never_raises funcs g args kwargs
            ∧ never_adds_to funcs g args kwargs name) as Hok'.
  { intros g Hg. apply Hok. by right. }
  destruct (P func) eqn:HP; [|by apply IH].
  destruct (Hok func (list_elem_of_here _ _) HP) as [Hret Hadd].
  rewrite call_spec.
  destruct (Hret (_events w) (app_state w)) as [v ->].
  cbv zeta. rewrite alias_pair.
  set (al' := alias_sees_all name _ al).
  assert (al'.2 = al.2) as Hal.
  { apply alias_sees_all_no_add. intros g. apply Hadd. }
  rewrite <-Hal. by apply IH.
Qed.

(** ** Counting calls *)

Lemma times_called_nil func : times_called func [] = 0.
Proof. done. Qed.

Lemma times_called_cons func i cs :
  times_called func (i :: cs) =
    (if decide (inv_func i = func) then 1 else 0) + times_called func cs.
Proof.
  unfold times_called. rewrite filter_cons. by destruct (decide _).
Qed.

Lemma times_called_not_elem_of func cs :
  func ∉ inv_func <$> cs → times_called func cs = 0.
Proof.
  induction cs as [|i cs IH]; [done|].
  rewrite fmap_cons, not_elem_of_cons, times_called_cons. intros [Hi Hcs].
  rewrite (IH Hcs). destruct (decide _); [congruence|done].
Qed.

Lemma times_called_NoDup func cs :
  NoDup (inv_func <$> cs) → func ∈ inv_func <$> cs → times_called func cs = 1.
Proof.
  induction cs as [|i cs IH]; [by intros _ ?%elem_of_nil|].
  rewrite fmap_cons, NoDup_cons, times_called_cons.
  intros [Hi Hnd] [->|Hin]%elem_of_cons.
  - rewrite decide_True by done. by rewrite times_called_not_elem_of.
  - rewrite decide_False by (intros Heq; apply Hi; by rewrite Heq).
    by rewrite IH.
Qed.

Lemma times_called_zero func cs :
  times_called func cs = 0 ↔ func ∉ inv_func <$> cs.
Proof.
  split; [|apply times_called_not_elem_of].
  induction cs as [|i cs IH]; [intros _; apply not_elem_of_nil|].
  rewrite times_called_cons, fmap_cons, not_elem_of_cons.
  destruct (decide _); [lia|]. intros H0. split; [done|]. apply IH. lia.
Qed.

(** The calls of a list without repetition are one call of each member. *)
Lemma invoked_once_each_elements (fs : gset fid) (l : list fid)
    args kwargs cs :
  inv_func <$> cs = l → NoDup l → (∀ func, func ∈ l ↔ func ∈ fs) →
  Forall (passed args kwargs) cs →
  invoked_once_each fs args kwargs cs.
Proof.
  intros Hcs Hnd Hl Hargs. split; [|done]. intros func.
  destruct (decide (func ∈ fs)) as [Hin|Hout].
  - apply times_called_NoDup; rewrite Hcs; [done|]. by apply Hl.
  - apply times_called_not_elem_of. rewrite Hcs. by rewrite Hl.
Qed.

Lemma filter_all_true (fs : list fid) :
  filter (λ func, (λ _ : fid, true) func) fs = fs.
Proof.
  induction fs as [|func fs IH]; [done|].
  rewrite filter_cons_True by done. by rewrite IH.
Qed.

Lemma NoDup_split_unique {A} (pre pre' post post' : list A) (x : A) :
  NoDup (pre ++ x :: post) → pre ++ x :: post = pre' ++ x :: post' →
  pre = pre' ∧ post = post'.
Proof.
  revert pre'. induction pre as [|y pre IH]; intros pre' Hnd Heq.
  - destruct pre' as [|y' pre']; simpl in *.
    + by injection Heq as ->.
    + injection Heq as <- ->. apply NoDup_cons_1_1 in Hnd.
      exfalso. apply Hnd. apply elem_of_app. right. left.
  - destruct pre' as [|y' pre']; simpl in *.
    + injection Heq as -> <-. apply NoDup_cons_1_1 in Hnd.
      exfalso. apply Hnd. apply elem_of_app. right. left.
    + injection Heq as <- Heq. apply NoDup_cons_1_2 in Hnd.
      destruct (IH _ Hnd Heq) as [-> ->]. done.
Qed.

(** ** Loops of guarded calls, whatever their end *)

(** The functions called are, in the order of the list, the ones that
    pass the test, up to where the loop ended. *)
Lemma guarded_loop_prefix P name al size0 (rest : list fid)
    (r : result unit) cs :
  loop_outcome P name al size0 rest r cs →
  inv_func <$> cs `prefix_of` filter (λ func, P func) rest.
Proof.
  destruct r as [u|x].
  - intros (-> & _). done.
  - intros [(pre & func & post & cs0 & i & -> & HP & -> & Hpre & _ & Hi & _)
           |(_ & (pre & post & -> & Hpre) & _)].
    + rewrite fmap_app, Hpre, filter_app.
      rewrite filter_cons_True by (by rewrite HP).
      simpl. rewrite Hi. exists (filter (λ func, P func) post).
      by rewrite <-app_assoc.
    + rewrite Hpre, filter_app. by eexists.
Qed.

(** The loop returns exactly when every call returned and the set that is
    iterated has kept its size. *)
Lemma guarded_loop_return_iff P name al size0 (rest : list fid)
    (r : result unit) cs :
  loop_outcome P name al size0 rest r cs →
  r = Return tt
  ↔ Forall (λ i, is_return (inv_result i)) cs
    ∧ size (alias_sees_all name (effects_of cs) al).2 = size0.
Proof.
  destruct r as [[]|x].
  - intros (_ & Hret & Hal). done.
  - intros [(pre & func & post & cs0 & i & _ & _ & -> & _ & _ & _ & Hx)
           |(_ & _ & _ & Hal)].
    + split; [done|]. rewrite Forall_app, Forall_singleton, Hx.
      by intros [[_ ?] _].
    + split; [done|]. by intros [_ ?].
Qed.

(** A call that raised ended the loop. *)
Lemma guarded_loop_stops P name al size0 (rest : list fid)
    (r : result unit) cs i x :
  NoDup rest →
  loop_outcome P name al size0 rest r cs →
  i ∈ cs → inv_result i = Raise x →
  r = Raise x
  ∧ inv_func i ∈ rest ∧ P (inv_func i) = true
  ∧ last cs = Some i
  ∧ (∀ later, after rest (inv_func i) later → times_called later cs = 0).
Proof.
  intros Hnd Hout Hi Hx.
  assert (Forall (λ i, is_return (inv_result i)) cs → False) as Hnot.
  { rewrite Forall_forall. intros Hret. specialize (Hret i Hi).
    by rewrite Hx in Hret. }
  destruct r as [u|x'].
  { destruct Hout as (_ & Hret & _). by destruct Hnot. }
  destruct Hout
    as [(pre & func & post & cs0 & j & -> & HP & -> & Hpre & Hret & Hj & Hxj)
       |(_ & _ & Hret & _)]; [|by destruct Hnot].
  assert (i = j) as ->.
  { apply elem_of_app in Hi as [Hi|Hi%list_elem_of_singleton]; [|done].
    rewrite Forall_forall in Hret. specialize (Hret i Hi).
    by rewrite Hx in Hret. }
  rewrite Hxj in Hx. injection Hx as ->. rewrite Hj.
  split; [done|]. split; [apply elem_of_app; right; left|].
  split; [done|]. split; [apply last_snoc|].
  intros later (pre' & post' & Hfs' & Hlater).
  apply times_called_not_elem_of.
  destruct (NoDup_split_unique _ _ _ _ _ Hnd Hfs') as [<- <-].
  rewrite fmap_app, Hpre. simpl. rewrite Hj.
  apply NoDup_app in Hnd as (_ & Hdisj & [Hfunc _]%NoDup_cons).
  rewrite elem_of_app, list_elem_of_singleton, list_elem_of_filter.
  intros [[_ Hin]| ->]; [|contradiction].
  apply (Hdisj _ Hin). by right.
Qed.

(** Two tests that agree on the list give the same loop. *)
Lemma guarded_loop_ext P Q name args kwargs (rest : list fid) al size0 w :
  (∀ func, func ∈ rest → P func = Q func) →
  iterate name al.1 al.2 size0 rest tt (guarded_call funcs P args kwargs) w
    = iterate name al.1 al.2 size0 rest tt
        (guarded_call funcs Q args kwargs) w.
Proof.
  revert al w. induction rest as [|func rest IH]; intros al w Hext.
  { by rewrite !iterate_guarded_nil. }
  rewrite !iterate_guarded_cons, <-(Hext func) by left.
  assert (∀ g, g ∈ rest → P g = Q g) as Hext'.
  { intros g Hg. apply Hext. by right. }
  destruct (decide _); [|done]. destruct (P func).
  - destruct (call funcs func args kwargs w) as [[v|x] w1]; [|done].
    cbv zeta. rewrite alias_pair. by apply IH.
  - by apply IH.
Qed.

Lemma guarded_loop_none name args kwargs (rest : list fid) al w :
  iterate name al.1 al.2 (size al.2) rest tt
    (guarded_call funcs (λ _, false) args kwargs) w
    = (Return tt, w).
Proof.
  induction rest as [|func rest IH].
  - rewrite iterate_guarded_nil. by rewrite decide_True.
  - rewrite iterate_guarded_cons. by rewrite decide_True.
Qed.

(** ** [emit] and [emit_only] as loops over the subscriber set *)

Lemma emit_unfold event args kwargs w :
  emit funcs event args kwargs w =
    iterate event true (subscribers w event) (size (subscribers w event))
      (set_iter (subscribers w event)) tt
      (guarded_call funcs (λ _, true) args kwargs) (vivify event w).
Proof.
  unfold emit, event_funcs, bind, ret. simpl. unfold bind.
  by rewrite getitem_spec.
Qed.

Lemma emit_only_unfold event func_names args kwargs w :
  emit_only funcs event func_names args kwargs w =
    iterate event true (subscribers w event) (size (subscribers w event))
      (set_iter (subscribers w event)) tt
      (guarded_call funcs
         (λ func, bool_decide
            (name (funcs func) ∈ normalize_names func_names))
         args kwargs)
      (vivify event w).
Proof.
  unfold emit_only, event_funcs, bind, ret. simpl. unfold bind.
  by rewrite getitem_spec.
Qed.

(** What the loop of [emit] or [emit_only] over the subscribers of [event]
    does. *)
Lemma subscriber_loop P event args kwargs w :
  let r := iterate event true (subscribers w event)
             (size (subscribers w event)) (set_iter (subscribers w event))
             tt (guarded_call funcs P args kwargs) (vivify event w) in
  ∃ cs,
    trace r.2 = trace w ++ cs
    ∧ new_calls w r.2 = cs
    ∧ ran_from funcs (<[event := subscribers w event]> (_events w))
        (app_state w) cs (_events r.2) (app_state r.2)
    ∧ Forall (passed args kwargs) cs
    ∧ loop_outcome P event (true, subscribers w event)
        (size (subscribers w event)) (set_iter (subscribers w event))
        r.1 cs.
Proof.
  intros r.
  destruct (guarded_loop P event args kwargs
              (set_iter (subscribers w event)) (true, subscribers w event)
              (size (subscribers w event)) (vivify event w))
    as (cs & Htr & Hran & Hargs & Hout).
  exists cs. split; [done|]. split; [by apply new_calls_app|]. done.
Qed.

Lemma subscriber_loop_returns P event args kwargs w :
  (∀ func, func ∈ subscribers w event → P func = true →
     never_raises funcs func args kwargs
     ∧ never_adds_to funcs func args kwargs event) →
  (iterate event true (subscribers w event)
     (size (subscribers w event)) (set_iter (subscribers w event))
     tt (guarded_call funcs P args kwargs) (vivify event w)).1 = Return tt.
Proof.
  intros Hok.
  apply (guarded_loop_returns P event args kwargs
           (set_iter (subscribers w event)) (true, subscribers w event)).
  intros func Hin. apply Hok. by apply elem_of_elements.
Qed.

(** The calls of a run are calls of the functions named in it. *)
Lemma ran_from_events d (a : App) cs d' a' :
  ran_from funcs d a cs d' a' → d' = apply_all (effects_of cs) d.
Proof.
  induction 1 as [|d a i cs d' a' Hres Heff _ IH]; [done|].
  by rewrite effects_of_cons, apply_all_app.
Qed.


(** ** [emit] *)

(** The normal path of [emit], in terms of the trace. *)
Lemma emit_normal_path event args kwargs w :
  (∀ func, func ∈ subscribers w event →
     never_raises funcs func args kwargs
     ∧ never_adds_to funcs func args kwargs event) →
  (emit funcs event args kwargs w).1 = Return tt
  ∧ ∃ cs, trace (emit funcs event args kwargs w).2 = trace w ++ cs
          ∧ invoked_once_each (subscribers w event) args kwargs cs
          ∧ inv_func <$> cs = set_iter (subscribers w event)
          ∧ ran_from funcs (<[event := subscribers w event]> (_events w))
              (app_state w) cs
              (_events (emit funcs event args kwargs w).2)
              (app_state (emit funcs event args kwargs w).2).
Proof.
  intros Hok. rewrite emit_unfold.
  destruct (subscriber_loop (λ _, true) event args kwargs w)
    as (cs & Htr & _ & Hran & Hargs & Hout).
  rewrite subscriber_loop_returns in * by (intros func Hin _; by apply Hok).
  destruct Hout as (Hfs & _ & _). rewrite filter_all_true in Hfs.
  split; [done|]. exists cs. split; [done|]. split; [|done].
  apply (invoked_once_each_elements _ _ _ _ _ Hfs); [|..|done].
  - apply NoDup_elements.
  - intros func. apply elem_of_elements.
Qed.

(** Whatever happens, [emit] calls subscribers of the event only. *)
Lemma emit_calls_subscribers event args kwargs w i :
  i ∈ new_calls w (emit funcs event args kwargs w).2 →
  inv_func i ∈ subscribers w event.
Proof.
  rewrite emit_unfold.
  destruct (subscriber_loop (λ _, true) event args kwargs w)
    as (cs & _ & -> & _ & _ & Hout).
  intros Hi. apply elem_of_elements.
  apply guarded_loop_prefix in Hout as [k Hk].
  rewrite filter_all_true in Hk. unfold set_iter in Hk. rewrite Hk.
  apply elem_of_app. left. by apply list_elem_of_fmap_2.
Qed.


(** C2.  A subscriber that raises during [emit] ends the emission: its
    exception is what [emit] raises to its caller, its call is the last
    call [emit] makes, and the subscribers that the set yields after it
    are not called. *)
Theorem emit_propagates_exception event args kwargs w i x :
  i ∈ new_calls w (emit funcs event args kwargs w).2 →
  inv_result i = Raise x →
  let r := emit funcs event args kwargs w in
  inv_func i ∈ subscribers w event
  ∧ r.1 = Raise x
  ∧ last (new_calls w r.2) = Some i
  ∧ (∀ later, after (set_iter (subscribers w event)) (inv_func i) later →
       times_called later (new_calls w r.2) = 0).
Proof.
  intros Hi Hx r. subst r. revert Hi. rewrite emit_unfold.
  destruct (subscriber_loop (λ _, true) event args kwargs w)
    as (cs & _ & -> & _ & _ & Hout).
  intros Hi.
  destruct (guarded_loop_stops _ _ _ _ _ _ _ i x
              (NoDup_elements _) Hout Hi Hx)
    as (Hr & Hin & _ & Hlast & Hafter).
  split; [by apply elem_of_elements|]. done.
Qed.

(** ** [emit_only] *)


(** ** [emit_after] *)

Lemma emit_after_call event func args kwargs w :
  wr_call (emit_after funcs event func) args kwargs w =
    match call funcs func args kwargs w with
    | (Return returned, w1) =>
        match emit funcs event [] [] w1 with
        | (Return _, w2) => (Return returned, w2)
        | (Raise x, w2) => (Raise x, w2)
        end
    | (Raise x, w1) => (Raise x, w1)
    end.
Proof.
  unfold emit_after, wraps. cbn [wr_call]. unfold bind at 1.
  destruct (call funcs func args kwargs w) as [[v|x] w1]; [|done].
  unfold bind, ret. by destruct (emit funcs event [] [] w1) as [[u|x] w2].
Qed.

Lemma emit_trace event args kwargs w :
  trace (emit funcs event args kwargs w).2
    = trace w ++ new_calls w (emit funcs event args kwargs w).2.
Proof.
  rewrite emit_unfold.
  by destruct (subscriber_loop (λ _, true) event args kwargs w)
    as (cs & -> & -> & _).
Qed.

(** C4 (as the code has it).  The function that [emit_after(event)] makes
    of [func] carries the name of [func] and, when called, first calls
    [func] with the arguments it was given.  If [func] raises, its
    exception is raised to the caller and nothing else happens: no
    subscriber is called and [event] is not looked up.  If [func] returns,
    [event] is then emitted with no argument on the state that [func]
    left, and the wrapper ends as that emission ends: it returns what
    [func] returned when the emission returns, and raises what the
    emission raises.  The emission returns, after one call of each
    subscriber of [event] without arguments, when no subscriber raises and
    none subscribes a function to [event] while it is called. *)
Theorem emit_after_calls_then_emits event func args kwargs w :
  let wrapped := emit_after funcs event func in
  let o := body (funcs func) args kwargs (_events w) (app_state w) in
  let first := Invocation func args kwargs (out_result o) (out_effects o) in
  let w1 := (call funcs func args kwargs w).2 in
  let r := wr_call wrapped args kwargs w in
  wr_name wrapped = name (funcs func)
  ∧ head (new_calls w r.2) = Some first
  ∧ (∀ x, out_result o = Raise x →
       r = (Raise x, w1) ∧ new_calls w r.2 = [first])
  ∧ (∀ returned, out_result o = Return returned →
       r.2 = (emit funcs event [] [] w1).2
       ∧ new_calls w r.2 = first :: new_calls w1 r.2
       ∧ Forall (passed [] []) (new_calls w1 r.2)
       ∧ ((emit funcs event [] [] w1).1 = Return tt →
          r.1 = Return returned)
       ∧ (∀ x, (emit funcs event [] [] w1).1 = Raise x → r.1 = Raise x)
       ∧ ((∀ g, g ∈ subscribers w1 event →
             never_raises funcs g [] []
             ∧ never_adds_to funcs g [] [] event) →
          r.1 = Return returned
          ∧ invoked_once_each (subscribers w1 event) [] []
              (new_calls w1 r.2)
          ∧ ran_from funcs (<[event := subscribers w1 event]> (_events w1))
              (app_state w1) (new_calls w1 r.2)
              (_events r.2) (app_state r.2))).
Proof.
  intros wrapped o first w1 r. subst wrapped r. split; [done|].
  rewrite emit_after_call. subst w1. rewrite call_spec. fold o. cbn [snd].
  set (w1 := World _ _ _).
  assert (trace w1 = trace w ++ [first]) as Hw1 by done.
  destruct (out_result o) as [v|x] eqn:Ho.
  - pose proof (emit_trace event [] [] w1) as Htr.
    assert (new_calls w (emit funcs event [] [] w1).2
            = first :: new_calls w1 (emit funcs event [] [] w1).2) as Hnew.
    { apply new_calls_app. rewrite Htr, Hw1. by rewrite <-app_assoc. }
    assert (Forall (passed [] [])
              (new_calls w1 (emit funcs event [] [] w1).2)) as Hargs.
    { rewrite emit_unfold.
      by destruct (subscriber_loop (λ _, true) event [] [] w1)
        as (cs & _ & -> & _ & Hargs & _). }
    assert (∀ u : result value,
              match emit funcs event [] [] w1 with
              | (Return _, w2) => (u, w2)
              | (Raise x, w2) => (Raise x, w2)
              end.2 = (emit funcs event [] [] w1).2) as Hsnd.
    { intros u. by destruct (emit funcs event [] [] w1) as [[]]. }
    rewrite !Hsnd. split; [by rewrite Hnew|].
    split; [by intros x [=]|]. intros returned [= ->].
    split; [done|]. split; [done|]. split; [done|].
    split; [|split].
    + by destruct (emit funcs event [] [] w1) as [[]].
    + intros x. destruct (emit funcs event [] [] w1) as [[]]; simpl; congruence.
    + intros Hok.
      destruct (emit_normal_path event [] [] w1 Hok)
        as (Hret & cs & Htr' & Honce & _ & Hran).
      rewrite (new_calls_app _ _ _ Htr').
      split; [|done]. by destruct (emit funcs event [] [] w1) as [[]].
  - cbn [snd]. rewrite (new_calls_app w w1 [first]) by done.
    split; [done|]. split; [|by intros returned [=]]. by intros x' [= ->].
Qed.

(** ** [on] *)

Lemma on_spec event func w :
  on funcs event func w =
    (Return (wraps funcs func (call funcs func)),
     set_events (<[event := subscribers w event ∪ {[func]}]> (_events w)) w).
Proof.
  unfold on, bind. rewrite getitem_spec. unfold set_add, bind.
  unfold setitem, ret, set_events. simpl. by rewrite insert_insert_eq.
Qed.

Lemma on_unhashable event type_name w :
  on funcs event (Unhashable type_name) w =
    (Raise (TypeError ("unhashable type: '" +:+ type_name +:+ "'")),
     vivify event w).
Proof. unfold on, bind. by rewrite getitem_spec. Qed.

Lemma on_subscribers event func w :
  subscribers (on funcs event func w).2 event =
    subscribers w event ∪ {[func]}.
Proof.
  rewrite on_spec. unfold subscribers at 1. simpl.
  by rewrite lookup_insert_eq.
Qed.

Lemma filter_eq_not_elem_of (x : fid) (l : list fid) :
  x ∉ l → filter (λ y, y = x) l = [].
Proof.
  induction l as [|y l IH]; [done|].
  rewrite not_elem_of_cons. intros [Hne Hl].
  rewrite filter_cons_False by congruence. by apply IH.
Qed.

Lemma length_filter_eq_NoDup (x : fid) (l : list fid) :
  NoDup l → x ∈ l → length (filter (λ y, y = x) l) = 1.
Proof.
  induction l as [|y l IH]; [by intros _ ?%elem_of_nil|].
  rewrite NoDup_cons. intros [Hy Hnd] Hin.
  destruct (decide (y = x)) as [->|Hne].
  - rewrite filter_cons_True by done. by rewrite filter_eq_not_elem_of.
  - rewrite filter_cons_False by done. apply IH; [done|].
    apply elem_of_cons in Hin as [->|Hin]; [congruence|done].
Qed.

(** C5 (as the code has it).  [on(event)(c)] first looks [event] up.  For
    a function object, as for any hashable callable, it then never fails,
    adds the function to the subscriber set of [event] and touches
    nothing else; what it returns is a wrapper that carries the name of
    the function, refers to it as the wrapped function, and when called
    does what calling the function with the same arguments does, result
    or exception included.  For a callable that is not hashable it raises
    the [TypeError] of [set.add]: nothing is subscribed and no wrapper is
    made, but the entry of [event] exists. *)
Theorem on_subscribes_and_returns_wrapper event (c : pyobject) w :
  let r := on funcs event c w in
  match c with
  | Function func =>
      ∃ wrapped,
        r.1 = Return wrapped
        ∧ subscribers r.2 event = subscribers w event ∪ {[func]}
        ∧ (∀ e, e ≠ event → _events r.2 !! e = _events w !! e)
        ∧ app_state r.2 = app_state w
        ∧ trace r.2 = trace w
        ∧ wr_name wrapped = name (funcs func)
        ∧ wr_wrapped wrapped = func
        ∧ ∀ args kwargs w0,
            wr_call wrapped args kwargs w0 = call funcs func args kwargs w0
            ∧ (wr_call wrapped args kwargs w0).1
                = out_result (body (funcs func) args kwargs (_events w0)
                                (app_state w0))
            ∧ new_calls w0 (wr_call wrapped args kwargs w0).2
                = [Invocation func args kwargs
                     (out_result (body (funcs func) args kwargs
                                    (_events w0) (app_state w0)))
                     (out_effects (body (funcs func) args kwargs
                                     (_events w0) (app_state w0)))]
  | Unhashable type_name =>
      r = (Raise (TypeError ("unhashable type: '" +:+ type_name +:+ "'")),
           vivify event w)
      ∧ ∀ e, subscribers r.2 e = subscribers w e
  end.
Proof.
  intros r. subst r. destruct c as [func|type_name].
  - exists (wraps funcs func (call funcs func)).
    rewrite on_subscribers, on_spec. simpl.
    repeat split; try done.
    + intros e Hne. by rewrite lookup_insert_ne.
    + by apply new_calls_app.
  - rewrite on_unhashable. split; [done|].
    intros e. apply (vivify_subscribers event w e).
Qed.

(** C6.  Subscribing the same function object to the same event a second
    time changes nothing: the state is the state after the first
    subscription, and the set yields the function once.  The set tells
    function objects apart by identity: any object that is not yet in the
    set, whatever its name, makes the set one larger. *)
Theorem on_twice_is_on_once event func w :
  let once := (on funcs event func w).2 in
  let twice := (on funcs event func once).2 in
  twice = once
  ∧ func ∈ subscribers once event
  ∧ length (filter (λ g, g = func) (set_iter (subscribers twice event))) = 1
  ∧ (∀ other : fid, other ∉ subscribers once event →
       size (subscribers (on funcs event other once).2 event)
         = S (size (subscribers once event))).
Proof.
  intros once twice.
  assert (func ∈ subscribers once event) as Hin.
  { subst once. rewrite on_subscribers.
    apply elem_of_union_r. by apply elem_of_singleton. }
  assert (twice = once) as Heq.
  { subst twice. rewrite on_spec. cbn [snd].
    assert (subscribers once event ∪ {[func]} = subscribers once event)
      as ->.
    { apply set_eq. intros g. rewrite elem_of_union, elem_of_singleton.
      split; [intros [?| ->]|]; auto. }
    apply (vivify_present event once (subscribers w event ∪ {[func]})).
    subst once. rewrite on_spec. apply lookup_insert_eq. }
  split; [done|]. split; [done|]. split.
  - rewrite Heq. apply length_filter_eq_NoDup; [apply NoDup_elements|].
    by apply elem_of_elements.
  - intros other Hother. rewrite on_subscribers.
    rewrite size_union, size_singleton; [lia|].
    intros g Hg ->%elem_of_singleton. contradiction.
Qed.

(** ** [remove_subscriber] *)

Lemma observed_lift {A} (r : result A) w :
  observed (lift r) w =
    match r with
    | Return a => (Return (a, []), w)
    | Raise x => (Raise x, w)
    end.
Proof.
  unfold observed, lift. destruct r as [a|x]; [|done].
  by rewrite new_calls_same.
Qed.

(** The loop never hits the [KeyError] of [set.remove]: what it removes
    from the copy comes from the set the copy was made of.  It calls
    nothing, so the set it iterates keeps its size. *)
Lemma remove_loop func_name key bound (obj : gset fid) (fs : list fid)
    (copy : gset fid) w :
  NoDup fs → (∀ func, func ∈ fs → func ∈ copy) →
  iterate key bound obj (size obj) fs copy (remove_named funcs func_name) w =
    (Return (copy ∖ list_to_set
               (filter (λ func, name (funcs func) = func_name) fs)), w).
Proof.
  revert copy. induction fs as [|func fs IH]; intros copy Hnd Hsub.
  { cbn [iterate]. rewrite decide_True by done.
    unfold ret. do 2 f_equal. rewrite filter_nil, list_to_set_nil.
    by rewrite difference_empty_L. }
  apply NoDup_cons in Hnd as [Hfunc Hnd].
  cbn [iterate]. rewrite decide_True by done.
  unfold bind at 1, remove_named at 1.
  destruct (decide (name (funcs func) = func_name)) as [Hname|Hname].
  - rewrite bool_decide_eq_true_2 by done. rewrite observed_lift.
    unfold set_remove. rewrite decide_True by (apply Hsub; left).
    cbn [fst snd alias_sees_all foldl].
    rewrite IH; [|done|].
    + rewrite filter_cons_True by done. do 2 f_equal.
      rewrite list_to_set_cons. apply set_eq. intros g.
      rewrite !elem_of_difference, elem_of_union. tauto.
    + intros g Hg. apply elem_of_difference. split.
      * apply Hsub. by right.
      * rewrite elem_of_singleton. by intros ->.
  - rewrite bool_decide_eq_false_2 by done. rewrite observed_ret.
    cbn [fst snd alias_sees_all foldl].
    rewrite IH; [|done|].
    + by rewrite filter_cons_False by done.
    + intros g Hg. apply Hsub. by right.
Qed.

Lemma remove_subscriber_spec event func_name w :
  remove_subscriber funcs event func_name w =
    (Return tt,
     set_events
       (<[event := not_named funcs func_name (subscribers w event)]>
          (_events w)) w).
Proof.
  unfold remove_subscriber, event_funcs, bind, ret. rewrite getitem_spec.
  unfold for_in, bind. rewrite getitem_spec.
  rewrite vivify_subscribers.
  rewrite (vivify_present event (vivify event w) (subscribers w event))
    by apply vivify_lookup.
  change (iterate ?n ?b ?o ?z ?fs ?acc _ ?w0)
    with (iterate n b o z fs acc (remove_named funcs func_name) w0).
  rewrite remove_loop;
    [|apply NoDup_elements|by intros func ?%elem_of_elements].
  unfold setitem, set_events. simpl. rewrite insert_insert_eq.
  do 3 f_equal. unfold not_named, set_iter. apply set_eq. intros func.
  rewrite elem_of_difference, elem_of_list_to_set, list_elem_of_filter,
    elem_of_filter, elem_of_elements.
  tauto.
Qed.

Lemma remove_subscriber_subscribers event func_name w :
  subscribers (remove_subscriber funcs event func_name w).2 event =
    not_named funcs func_name (subscribers w event).
Proof.
  rewrite remove_subscriber_spec. unfold subscribers at 1. simpl.
  by rewrite lookup_insert_eq.
Qed.

Lemma not_named_all func_name (s : gset fid) :
  (∀ func, func ∈ s → name (funcs func) ≠ func_name) →
  not_named funcs func_name s = s.
Proof.
  intros Hs. apply set_eq. intros func. unfold not_named.
  rewrite elem_of_filter. split; [tauto|]. intros Hin.
  split; [by apply Hs|done].
Qed.

(** C8.  [remove_subscriber(event, func_name)] never fails.  It takes out of
    the subscriber set of [event] the functions called [func_name] and
    keeps the others; it calls nothing.  When no subscriber of [event] is
    called [func_name], and so when [event] was never seen, it only makes
    sure that the entry of [event] exists.  An [emit] of [event] afterwards
    calls no function called [func_name], whatever the subscribers do, and
    on its normal path, where no subscriber that was kept raises or
    subscribes to [event], calls each of them exactly once. *)
Theorem remove_subscriber_removes_named event func_name w :
  let r := remove_subscriber funcs event func_name w in
  r.1 = Return tt
  ∧ (∀ func, func ∈ subscribers r.2 event ↔
       func ∈ subscribers w event ∧ name (funcs func) ≠ func_name)
  ∧ app_state r.2 = app_state w
  ∧ trace r.2 = trace w
  ∧ ((∀ func, func ∈ subscribers w event →
        name (funcs func) ≠ func_name) →
       r.2 = vivify event w
       ∧ (∀ e, subscribers r.2 e = subscribers w e)
       ∧ (is_Some (_events w !! event) → r.2 = w))
  ∧ (_events w !! event = None →
       r = (Return tt, set_events (<[event := ∅]> (_events w)) w))
  ∧ (∀ args kwargs,
       let r' := emit funcs event args kwargs r.2 in
       (∀ i, i ∈ new_calls r.2 r'.2 →
          name (funcs (inv_func i)) ≠ func_name
          ∧ inv_func i ∈ subscribers w event)
       ∧ ((∀ func, func ∈ subscribers w event →
             name (funcs func) ≠ func_name →
             never_raises funcs func args kwargs
             ∧ never_adds_to funcs func args kwargs event) →
          r'.1 = Return tt
          ∧ invoked_once_each
              (not_named funcs func_name (subscribers w event))
              args kwargs (new_calls r.2 r'.2))).
Proof.
  intros r.
  assert (∀ func, func ∈ subscribers r.2 event ↔
            func ∈ subscribers w event ∧ name (funcs func) ≠ func_name)
    as Hkept.
  { intros func. subst r. rewrite remove_subscriber_subscribers.
    unfold not_named. rewrite elem_of_filter. tauto. }
  assert (∀ s, not_named funcs func_name (subscribers w event) = s →
            r.2 = set_events (<[event := s]> (_events w)) w) as Hstate.
  { intros s <-. subst r. by rewrite remove_subscriber_spec. }
  split; [subst r; by rewrite remove_subscriber_spec|].
  split; [done|].
  split; [subst r; by rewrite remove_subscriber_spec|].
  split; [subst r; by rewrite remove_subscriber_spec|].
  split; [|split].
  - intros Hnone. pose proof (Hstate _ (not_named_all _ _ Hnone)) as Hr.
    split; [done|]. split.
    + intros e. rewrite Hr. apply (vivify_subscribers event w e).
    + intros [s Hs]. rewrite Hr. by apply (vivify_present event w s).
  - intros Habsent. subst r. rewrite remove_subscriber_spec.
    unfold subscribers. rewrite Habsent. simpl.
    by rewrite not_named_all by (by intros func ?%elem_of_empty).
  - intros args kwargs r'. split.
    + intros i Hi. apply emit_calls_subscribers, Hkept in Hi. tauto.
    + intros Hok.
      assert (∀ func, func ∈ subscribers r.2 event →
                never_raises funcs func args kwargs
                ∧ never_adds_to funcs func args kwargs event) as Hok'.
      { intros func [??]%Hkept. by apply Hok. }
      destruct (emit_normal_path event args kwargs r.2 Hok')
        as (Hret & cs & Htr & Honce & _).
      split; [done|]. subst r'. rewrite (new_calls_app _ _ _ Htr).
      subst r. by rewrite remove_subscriber_subscribers in Honce.
Qed.

(** C10.  [remove_subscriber(event, func_name)] leaves the entry of every
    other event as it is: stored or not, with the same members and the
    same size. *)
Theorem remove_subscriber_frame event event' func_name w :
  event ≠ event' →
  let w' := (remove_subscriber funcs event func_name w).2 in
  _events w' !! event' = _events w !! event'
  ∧ subscribers w' event' = subscribers w event'
  ∧ size (subscribers w' event') = size (subscribers w event').
Proof.
  intros Hne w'.
  assert (_events w' !! event' = _events w !! event') as Hev.
  { subst w'. rewrite remove_subscriber_spec. simpl.
    by rewrite lookup_insert_ne. }
  split; [done|]. unfold subscribers. by rewrite Hev.
Qed.

(** ** Unseen event names *)

Lemma event_func_names_spec name_ w :
  event_func_names funcs name_ w =
    (Return ((λ func, name (funcs func)) <$> set_iter (subscribers w name_)),
     vivify name_ w).
Proof. unfold event_func_names, bind. by rewrite getitem_spec. Qed.

Lemma iterate_nothing {A} key bound (obj : gset fid) (acc : A)
    (body : fid → A → M App A) w :
  iterate key bound obj (size obj) [] acc body w = (Return acc, w).
Proof. cbn [iterate]. by rewrite decide_True. Qed.

(** C9 (as the code has it).  An event name without an entry is never an
    error, and an empty entry is made for it by [event_func_names], [emit],
    [emit_only] and [remove_subscriber] during the call.  [event_funcs] is
    a generator function: its call returns the generator and leaves the
    dictionary alone, and the empty entry is made by the first [next] on
    that generator. *)
Theorem unseen_event_gets_entry_on_access name_ w :
  _events w !! name_ = None →
  let created := set_events (<[name_ := ∅]> (_events w)) w in
  _events created !! name_ = Some ∅
  ∧ event_funcs name_ w = (Return (GenCreated name_), w)
  ∧ gen_next (GenCreated name_) w = (Return (None, GenDone), created)
  ∧ event_func_names funcs name_ w = (Return [], created)
  ∧ (∀ args kwargs,
       emit funcs name_ args kwargs w = (Return tt, created))
  ∧ (∀ func_names args kwargs,
       emit_only funcs name_ func_names args kwargs w
         = (Return tt, created))
  ∧ (∀ func_name,
       remove_subscriber funcs name_ func_name w = (Return tt, created)).
Proof.
  intros Habsent created.
  assert (subscribers w name_ = ∅) as Hnone.
  { unfold subscribers. by rewrite Habsent. }
  assert (vivify name_ w = created) as Hviv by by apply vivify_absent.
  split; [apply lookup_insert_eq|]. split; [done|].
  split; [|split; [|split; [|split]]].
  - simpl. unfold bind. rewrite getitem_spec. unfold set_iter, iter_next.
    rewrite decide_True by done.
    by rewrite Hnone, elements_empty, Hviv.
  - rewrite event_func_names_spec. unfold set_iter.
    by rewrite Hnone, elements_empty, Hviv.
  - intros args kwargs. rewrite emit_unfold. unfold set_iter.
    by rewrite Hnone, elements_empty, iterate_nothing, Hviv.
  - intros func_names args kwargs. rewrite emit_only_unfold. unfold set_iter.
    by rewrite Hnone, elements_empty, iterate_nothing, Hviv.
  - intros func_name. rewrite remove_subscriber_spec, Hnone.
    by rewrite not_named_all by (by intros func ?%elem_of_empty).
Qed.

(** ** [subscribed_event_count] *)

(** The [Counter] that the loop fills holds the size of every stored set. *)
Lemma event_counter_sizes (l : list (string * gset fid)) :
  NoDup l.*1 →
  foldl (λ (c : gmap string nat) kv, <[kv.1 := size kv.2]> c) ∅ l
    = size <$> (list_to_map l : gmap string (gset fid)).
Proof.
  induction l as [|[k v] l IH] using rev_ind; intros Hnd.
  { by rewrite list_to_map_nil, fmap_empty. }
  rewrite fmap_app, NoDup_app in Hnd. destruct Hnd as (Hl & Hk & _).
  rewrite foldl_snoc, IH by done. simpl.
  rewrite list_to_map_snoc, fmap_insert; [done|].
  intros Hin. apply (Hk _ Hin). simpl. left.
Qed.

Lemma subscribed_event_count_spec w :
  subscribed_event_count w =
    (Return (sum_list ((λ kv, size kv.2) <$> map_to_list (_events w))), w).
Proof.
  unfold subscribed_event_count.
  rewrite event_counter_sizes by apply NoDup_fst_map_to_list.
  rewrite list_to_map_to_list, map_to_list_fmap, <-list_fmap_compose.
  done.
Qed.

Lemma sum_list_fmap_ext_in (f g : string → nat) (l : list string) :
  (∀ x, x ∈ l → f x = g x) → sum_list (f <$> l) = sum_list (g <$> l).
Proof.
  induction l as [|x l IH]; intros Hfg; [done|].
  rewrite !fmap_cons. simpl. rewrite (Hfg x) by left.
  rewrite IH; [done|]. intros y Hy. apply Hfg. by right.
Qed.

(** Adding up over the stored entries, or over any set of names that
    holds the stored ones, gives the same number. *)
Lemma sum_sizes_over_names (m : gmap string (gset fid)) (names : gset string) :
  dom m ⊆ names →
  sum_list ((λ e, size (default ∅ (m !! e))) <$> elements names)
    = sum_list ((λ kv, size kv.2) <$> map_to_list m).
Proof.
  revert names. induction m as [|k v m Hk IH] using map_ind; intros names Hdom.
  - rewrite map_to_list_empty. simpl.
    rewrite (sum_list_fmap_ext_in _ (λ _, 0)).
    + rewrite sum_list_fmap_const. lia.
    + intros e _. by rewrite lookup_empty.
  - rewrite map_to_list_insert by done. rewrite fmap_cons. simpl.
    assert (k ∈ names) as Hin.
    { apply Hdom. rewrite dom_insert_L. apply elem_of_union_l.
      by apply elem_of_singleton. }
    assert (names = {[k]} ∪ names ∖ {[k]}) as Hsplit.
    { apply set_eq. intros e.
      rewrite elem_of_union, elem_of_difference, elem_of_singleton.
      destruct (decide (e = k)) as [->|]; tauto. }
    rewrite Hsplit at 1.
    rewrite elements_union_singleton
      by (rewrite elem_of_difference, elem_of_singleton; tauto).
    rewrite fmap_cons. simpl. rewrite lookup_insert_eq. simpl. f_equal.
    rewrite <-(IH (names ∖ {[k]})).
    + apply sum_list_fmap_ext_in. intros e He.
      apply elem_of_elements, elem_of_difference in He as [_ He].
      rewrite elem_of_singleton in He. by rewrite lookup_insert_ne.
    + intros e He. apply elem_of_difference. split.
      * apply Hdom. rewrite dom_insert_L. by apply elem_of_union_r.
      * rewrite elem_of_singleton. intros ->.
        apply elem_of_dom in He as [? He]. congruence.
Qed.

(** ** Histories *)

Lemma advance_done n w : (advance n GenDone w).2 = w.
Proof.
  induction n as [|n IH]; [done|]. simpl. unfold bind. simpl. apply IH.
Qed.

Lemma advance_suspended n key bound (obj : gset fid) size0 (rest : list fid)
    w :
  (advance n (GenSuspended key bound obj size0 rest) w).2 = w.
Proof.
  revert rest. induction n as [|n IH]; intros rest; [done|].
  simpl. unfold bind, iter_next.
  destruct (decide (size obj = size0)); [|done].
  destruct rest as [|func rest]; simpl.
  - apply advance_done.
  - apply IH.
Qed.

Lemma advance_created n name_ w :
  (advance (S n) (GenCreated name_) w).2 = vivify name_ w.
Proof.
  simpl. unfold bind at 1. simpl. unfold bind. rewrite getitem_spec.
  unfold iter_next. rewrite decide_True by done.
  destruct (set_iter (subscribers w name_)) as [|func rest]; simpl.
  - apply advance_done.
  - apply advance_suspended.
Qed.

(** The entries after a loop of guarded calls over the subscribers of
    [event]: those there were, that of [event], and those the calls have
    looked up or stored. *)
Lemma subscriber_loop_dom P event args kwargs w :
  let r := iterate event true (subscribers w event)
             (size (subscribers w event)) (set_iter (subscribers w event))
             tt (guarded_call funcs P args kwargs) (vivify event w) in
  trace r.2 = trace w ++ new_calls w r.2
  ∧ dom (_events r.2)
      = touched (new_calls w r.2) ∪ ({[event]} ∪ dom (_events w)).
Proof.
  intros r.
  destruct (subscriber_loop P event args kwargs w)
    as (cs & Htr & Hnew & Hran & _).
  fold r in Htr, Hnew, Hran. rewrite Hnew. split; [done|].
  rewrite (ran_from_events _ _ _ _ _ Hran), dom_apply_all, dom_insert_L.
  done.
Qed.

Lemma call_dom func args kwargs w :
  dom (_events (call funcs func args kwargs w).2)
    = touched (new_calls w (call funcs func args kwargs w).2)
      ∪ dom (_events w).
Proof.
  rewrite call_trace, call_spec. cbn [snd _events].
  rewrite dom_apply_all. unfold touched, effects_of. simpl.
  by rewrite app_nil_r.
Qed.

(** What an operation does to the trace and to the set of stored names. *)
Lemma exec_hist o w :
  ∃ cs, trace (exec funcs o w) = trace w ++ cs
        ∧ dom (_events w) ⊆ dom (_events (exec funcs o w))
        ∧ dom (_events (exec funcs o w))
            ⊆ dom (_events w) ∪ op_names o ∪ touched cs.
Proof.
  assert (∀ key, dom (_events w) ⊆ dom (_events (vivify key w))
                 ∧ dom (_events (vivify key w))
                     ⊆ dom (_events w) ∪ {[key]} ∪ touched []) as Hviv.
  { intros key. rewrite vivify_dom.
    split; intros e; rewrite !elem_of_union; tauto. }
  assert (dom (_events w) ⊆ dom (_events w)
          ∧ ∀ names, dom (_events w) ⊆ dom (_events w) ∪ names ∪ touched [])
    as [Hsame Hsame'].
  { split; [done|]. intros names e. rewrite !elem_of_union. tauto. }
  destruct o as [event c|event args kwargs|event func_names args kwargs
                |event func args kwargs|name_ nexts|name_| |event func_name];
    cbn [exec op_names].
  - exists []. rewrite app_nil_r. destruct c as [func|type_name].
    + rewrite on_spec. simpl. rewrite dom_insert_L.
      split; [done|]. split; intros e; rewrite !elem_of_union; tauto.
    + rewrite on_unhashable. split; [done|]. apply Hviv.
  - rewrite emit_unfold.
    destruct (subscriber_loop_dom (λ _, true) event args kwargs w)
      as [Htr Hdom].
    eexists. split; [exact Htr|]. rewrite Hdom.
    split; intros e; rewrite !elem_of_union; tauto.
  - rewrite emit_only_unfold.
    destruct (subscriber_loop_dom
                (λ func, bool_decide
                   (name (funcs func) ∈ normalize_names func_names))
                event args kwargs w) as [Htr Hdom].
    eexists. split; [exact Htr|]. rewrite Hdom.
    split; intros e; rewrite !elem_of_union; tauto.
  - rewrite emit_after_call.
    pose proof (call_dom func args kwargs w) as Hdom1.
    pose proof (call_trace func args kwargs w) as Hnew1.
    assert (trace (call funcs func args kwargs w).2
            = trace w ++ new_calls w (call funcs func args kwargs w).2)
      as Htr1 by by rewrite Hnew1.
    destruct (call funcs func args kwargs w) as [[v|x] w1]; cbn [snd] in *.
    + pose proof (emit_unfold event [] [] w1) as Hemit.
      destruct (subscriber_loop_dom (λ _, true) event [] [] w1)
        as [Htr2 Hdom2].
      rewrite <-Hemit in Htr2, Hdom2.
      assert (∀ u : result value,
                match emit funcs event [] [] w1 with
                | (Return _, w2) => (u, w2)
                | (Raise x, w2) => (Raise x, w2)
                end.2 = (emit funcs event [] [] w1).2) as ->.
      { intros u. by destruct (emit funcs event [] [] w1) as [[]]. }
      eexists. split; [by rewrite Htr2, Htr1, <-app_assoc|].
      rewrite Hdom2, Hdom1, touched_app.
      split; intros e; rewrite !elem_of_union; tauto.
    + eexists. split; [exact Htr1|]. rewrite Hdom1.
      split; intros e; rewrite !elem_of_union; tauto.
  - exists []. rewrite app_nil_r.
    unfold event_funcs, bind, ret. destruct nexts as [|n].
    + simpl. split; [done|]. split; [done|apply Hsame'].
    + rewrite advance_created. split; [done|]. apply Hviv.
  - exists []. rewrite app_nil_r, event_func_names_spec.
    split; [done|]. apply Hviv.
  - exists []. rewrite app_nil_r. split; [done|]. split; [done|apply Hsame'].
  - exists []. rewrite app_nil_r, remove_subscriber_spec. simpl.
    rewrite dom_insert_L.
    split; [done|]. split; intros e; rewrite !elem_of_union; tauto.
Qed.

Lemma run_hist ops w :
  ∃ cs, trace (run funcs ops w) = trace w ++ cs
        ∧ dom (_events w) ⊆ dom (_events (run funcs ops w))
        ∧ dom (_events (run funcs ops w))
            ⊆ dom (_events w) ∪ accessed ops ∪ touched cs.
Proof.
  revert w. induction ops as [|o ops IH]; intros w.
  - exists []. rewrite app_nil_r. simpl. split; [done|]. split; [done|].
    intros e. rewrite !elem_of_union. tauto.
  - change (run funcs (o :: ops) w) with (run funcs ops (exec funcs o w)).
    destruct (exec_hist o w) as (cs1 & Htr1 & Hlo1 & Hhi1).
    destruct (IH (exec funcs o w)) as (cs2 & Htr2 & Hlo2 & Hhi2).
    exists (cs1 ++ cs2). split; [by rewrite Htr2, Htr1, <-app_assoc|].
    split; [by etrans|].
    unfold accessed. rewrite fmap_cons, union_list_cons, touched_app.
    intros e He. apply Hhi2 in He.
    rewrite !elem_of_union in He. rewrite !elem_of_union.
    destruct He as [[He|He]|He]; [|tauto..].
    apply Hhi1 in He. rewrite !elem_of_union in He. tauto.
Qed.

Lemma run_dom ops w :
  dom (_events (run funcs ops w))
    ⊆ dom (_events w) ∪ accessed ops
      ∪ touched (new_calls w (run funcs ops w)).
Proof.
  destruct (run_hist ops w) as (cs & Htr & _ & Hhi).
  by rewrite (new_calls_app _ _ _ Htr).
Qed.

Lemma touched_no_effects cs :
  Forall (λ i, inv_effects i = []) cs → touched cs = ∅.
Proof.
  unfold touched. induction 1 as [|i cs Hi _ IH]; [done|].
  by rewrite effects_of_cons, Hi.
Qed.

(** C7.  After any history of operations on a new bus,
    [subscribed_event_count()] returns the sizes of the subscriber sets
    added up over the event names that the history has accessed: those
    named in its operations and those that the functions it called have
    looked up or stored.  These hold every name with an entry, a name
    without an entry or with an empty entry counts for zero, and the
    result is also the sum over the stored entries alone.  The count
    changes nothing.  When the functions called have left the bus alone,
    the names are those of the operations. *)
Theorem subscribed_event_count_sums_set_sizes ops a :
  let w := run funcs ops (init a) in
  let names := accessed ops ∪ touched (trace w) in
  subscribed_event_count w = (Return (sum_of_sizes w names), w)
  ∧ dom (_events w) ⊆ names
  ∧ sum_of_sizes w names = sum_of_sizes w (dom (_events w))
  ∧ (∀ event, event ∉ dom (_events w) ∨ _events w !! event = Some ∅ →
       size (subscribers w event) = 0)
  ∧ (Forall (λ i, inv_effects i = []) (trace w) → names = accessed ops).
Proof.
  intros w names.
  assert (dom (_events w) ⊆ names) as Hdom.
  { intros e He. apply (run_dom ops (init a)) in He.
    unfold new_calls in He. simpl in He. rewrite drop_0 in He.
    rewrite dom_empty_L in He. subst names.
    rewrite !elem_of_union in He. rewrite elem_of_union.
    destruct He as [[He|He]|He]; [by apply elem_of_empty in He|tauto..]. }
  split; [|split; [done|split; [|split]]].
  - rewrite subscribed_event_count_spec. do 2 f_equal.
    symmetry. by apply sum_sizes_over_names.
  - unfold sum_of_sizes, subscribers.
    by rewrite !sum_sizes_over_names.
  - intros event [Hout|Hempty]; unfold subscribers.
    + apply not_elem_of_dom in Hout. by rewrite Hout.
    + by rewrite Hempty.
  - intros Hquiet. subst names. rewrite (touched_no_effects _ Hquiet).
    apply set_eq. intros e. rewrite elem_of_union, elem_of_empty. tauto.
Qed.

(** * Further properties of the methods *)

(** ** The methods as mutations of the dictionary

    What a function that is called by the bus can do to the dictionary
    through the methods of the bus is a list of mutations. *)

Lemma on_as_mutations event func w :
  _events (on funcs event func w).2
    = apply_all [Lookup event; Add event func] (_events w).
Proof.
  rewrite on_spec. simpl. rewrite lookup_insert_eq, insert_insert_eq.
  done.
Qed.

Lemma remove_subscriber_as_mutations event func_name w :
  _events (remove_subscriber funcs event func_name w).2
    = apply_all
        [Lookup event;
         Store event (not_named funcs func_name (subscribers w event))]
        (_events w).
Proof.
  rewrite remove_subscriber_spec. simpl. by rewrite insert_insert_eq.
Qed.

(** ** Loops and generators *)

Lemma gen_sees_all_suspended ms key bound (obj : gset fid) size0
    (rest : list fid) :
  gen_sees_all ms (GenSuspended key bound obj size0 rest)
    = GenSuspended key (alias_sees_all key ms (bound, obj)).1
        (alias_sees_all key ms (bound, obj)).2 size0 rest.
Proof.
  revert bound obj. induction ms as [|m ms IH]; intros bound obj; [done|].
  change (gen_sees_all (m :: ms) ?g) with (gen_sees_all ms (gen_sees g m)).
  change (alias_sees_all key (m :: ms) ?al)
    with (alias_sees_all key ms (alias_sees key al m)).
  cbn [gen_sees]. rewrite IH. by rewrite <-surjective_pairing.
Qed.

(** A [for] loop over a generator is [next], the body, and the loop over
    the generator as the body has left it. *)
Lemma for_in_unroll {A} (g : generator) (acc : A)
    (body : fid → A → M App A) w :
  for_in g acc body w =
    match gen_next g w with
    | (Return (Some func, g'), w1) =>
        match observed (body func acc) w1 with
        | (Return r, w2) => for_in (gen_sees_all r.2 g') r.1 body w2
        | (Raise x, w2) => (Raise x, w2)
        end
    | (Return (None, _), w1) => (Return acc, w1)
    | (Raise x, w1) => (Raise x, w1)
    end.
Proof.
  assert (∀ key bound (obj : gset fid) size0 (rest : list fid) w0,
            iterate key bound obj size0 rest acc body w0 =
              match iter_next key bound obj size0 rest w0 with
              | (Return (Some func, g'), w1) =>
                  match observed (body func acc) w1 with
                  | (Return r, w2) => for_in (gen_sees_all r.2 g') r.1 body w2
                  | (Raise x, w2) => (Raise x, w2)
                  end
              | (Return (None, _), w1) => (Return acc, w1)
              | (Raise x, w1) => (Raise x, w1)
              end) as Hiter.
  { intros key bound obj size0 rest w0. unfold iter_next.
    destruct rest as [|func rest]; cbn [iterate];
      destruct (decide (size obj = size0)); try done.
    unfold bind, ret.
    destruct (observed (body func acc) w0) as [[r|x] w2]; [|done].
    by rewrite gen_sees_all_suspended. }
  destruct g as [key|key bound obj size0 rest|]; [| |done].
  - cbn [for_in gen_next]. unfold bind.
    destruct (getitem key w) as [[s|x] w0]; [|done]. apply Hiter.
  - apply Hiter.
Qed.

(** ** [emit], [emit_only] and [emit_after], whatever the subscribers do *)

Lemma effects_of_quiet cs :
  Forall (λ i, inv_effects i = []) cs → effects_of cs = [].
Proof.
  induction 1 as [|i cs Hi _ IH]; [done|].
  by rewrite effects_of_cons, Hi, IH.
Qed.

Lemma emit_events event args kwargs w :
  _events (emit funcs event args kwargs w).2
    = apply_all (effects_of (new_calls w (emit funcs event args kwargs w).2))
        (_events (vivify event w)).
Proof.
  rewrite emit_unfold.
  destruct (subscriber_loop (λ _, true) event args kwargs w)
    as (cs & _ & -> & Hran & _).
  by apply ran_from_events in Hran.
Qed.

Lemma emit_only_events event func_names args kwargs w :
  _events (emit_only funcs event func_names args kwargs w).2
    = apply_all
        (effects_of
           (new_calls w (emit_only funcs event func_names args kwargs w).2))
        (_events (vivify event w)).
Proof.
  rewrite emit_only_unfold.
  destruct (subscriber_loop
              (λ func, bool_decide
                 (name (funcs func) ∈ normalize_names func_names))
              event args kwargs w)
    as (cs & _ & -> & Hran & _).
  by apply ran_from_events in Hran.
Qed.

(** X1.  Whether it returns or raises, [emit] calls subscribers of the
    event only, in the order in which the set yields them and without
    skipping any up to where it stops, none of them twice, each with the
    emitted arguments, and each call is the body of its function run on
    the state that the call before it left.  It returns exactly when every
    call it made returned and the set it iterates has kept its size; when
    it raises, it raises what its last call raised, or the [RuntimeError]
    of the set iterator.  The dictionary is changed by the lookup of
    [event] and by what the calls have done to it. *)
Theorem emit_calls_a_prefix_of_the_set event args kwargs w :
  let r := emit funcs event args kwargs w in
  let cs := new_calls w r.2 in
  inv_func <$> cs `prefix_of` set_iter (subscribers w event)
  ∧ Forall (passed args kwargs) cs
  ∧ (∀ func, (times_called func cs ≤ 1)%nat)
  ∧ (∀ func, func ∉ subscribers w event → times_called func cs = 0)
  ∧ (r.1 = Return tt
     ↔ Forall (λ i, is_return (inv_result i)) cs
       ∧ size (iterated_set event (subscribers w event) cs)
           = size (subscribers w event))
  ∧ (∀ x, r.1 = Raise x →
       (∃ i, last cs = Some i ∧ inv_result i = Raise x)
       ∨ (x = changed_size
          ∧ size (iterated_set event (subscribers w event) cs)
              ≠ size (subscribers w event)))
  ∧ ran_from funcs (<[event := subscribers w event]> (_events w))
      (app_state w) cs (_events r.2) (app_state r.2)
  ∧ _events r.2
      = apply_all (effects_of cs)
          (<[event := subscribers w event]> (_events w)).
Proof.
  intros r cs. subst cs r. rewrite emit_unfold.
  destruct (subscriber_loop (λ _, true) event args kwargs w)
    as (cs & _ & -> & Hran & Hargs & Hout).
  pose proof (guarded_loop_prefix _ _ _ _ _ _ _ Hout) as Hpre.
  rewrite filter_all_true in Hpre.
  assert (NoDup (inv_func <$> cs)) as Hnd.
  { destruct Hpre as [k Hk].
    pose proof (NoDup_elements (subscribers w event)) as Hs.
    unfold set_iter in Hk. rewrite Hk in Hs.
    by apply NoDup_app in Hs as [? _]. }
  split; [done|]. split; [done|].
  split; [|split; [|split; [|split; [|split]]]].
  - intros func. destruct (decide (func ∈ inv_func <$> cs)) as [Hin|Hout'].
    + by rewrite times_called_NoDup.
    + rewrite times_called_not_elem_of by done. lia.
  - intros func Hfunc. apply times_called_not_elem_of. intros Hin.
    apply Hfunc, elem_of_elements. destruct Hpre as [k Hk].
    unfold set_iter in Hk. rewrite Hk. apply elem_of_app. by left.
  - by apply guarded_loop_return_iff in Hout.
  - intros x Hx. rewrite Hx in Hout.
    destruct Hout
      as [(pre & func & post & cs0 & i & _ & _ & -> & _ & _ & _ & Hi)
         |(-> & _ & _ & Hsize)].
    + left. exists i. by rewrite last_snoc.
    + by right.
  - done.
  - by apply ran_from_events in Hran.
Qed.

(** X2.  A subscriber that raises during [emit_only] ends it as one ends
    [emit]: the exception is what [emit_only] raises, the failing call is
    the last one, its function is a subscriber named in [func_names], and
    what the set yields after it is not called. *)
Theorem emit_only_propagates_exception event func_names args kwargs w i x :
  i ∈ new_calls w (emit_only funcs event func_names args kwargs w).2 →
  inv_result i = Raise x →
  let r := emit_only funcs event func_names args kwargs w in
  r.1 = Raise x
  ∧ inv_func i ∈ subscribers w event
  ∧ name (funcs (inv_func i)) ∈ normalize_names func_names
  ∧ last (new_calls w r.2) = Some i
  ∧ (∀ later, after (set_iter (subscribers w event)) (inv_func i) later →
       times_called later (new_calls w r.2) = 0).
Proof.
  intros Hi Hx r. subst r. revert Hi. rewrite emit_only_unfold.
  set (P := λ func : fid,
         bool_decide (name (funcs func) ∈ normalize_names func_names)).
  destruct (subscriber_loop P event args kwargs w)
    as (cs & _ & -> & _ & _ & Hout).
  intros Hi.
  destruct (guarded_loop_stops _ _ _ _ _ _ _ i x
              (NoDup_elements _) Hout Hi Hx)
    as (Hr & Hin & HP & Hlast & Hafter).
  split; [done|]. split; [by apply elem_of_elements|].
  split; [by apply bool_decide_eq_true in HP|]. done.
Qed.

(** X3.  When every subscriber of the event is named in [func_names],
    [emit_only] is [emit]: same calls, same result, same state. *)
Theorem emit_only_with_every_name_is_emit event func_names args kwargs w :
  (∀ func, func ∈ subscribers w event →
     name (funcs func) ∈ normalize_names func_names) →
  emit_only funcs event func_names args kwargs w
    = emit funcs event args kwargs w.
Proof.
  intros Hall. rewrite emit_only_unfold, emit_unfold.
  apply (guarded_loop_ext _ _ event args kwargs _
           (true, subscribers w event)).
  intros func Hin.
  apply bool_decide_eq_true_2, Hall. by apply elem_of_elements.
Qed.

(** X4.  When no subscriber of the event is named in [func_names], as
    with an empty list of names, [emit_only] calls nothing and returns,
    whatever the subscribers would have done; it only makes sure that the
    entry of the event exists. *)
Theorem emit_only_without_match_calls_nothing event func_names args kwargs w :
  (∀ func, func ∈ subscribers w event →
     name (funcs func) ∉ normalize_names func_names) →
  emit_only funcs event func_names args kwargs w
    = (Return tt, vivify event w)
  ∧ new_calls w (emit_only funcs event func_names args kwargs w).2 = [].
Proof.
  intros Hnone.
  assert (emit_only funcs event func_names args kwargs w
          = (Return tt, vivify event w)) as ->.
  { rewrite emit_only_unfold.
    rewrite (guarded_loop_ext _ (λ _, false) event args kwargs _
               (true, subscribers w event)).
    - apply (guarded_loop_none event args kwargs _
               (true, subscribers w event)).
    - intros func Hin. apply bool_decide_eq_false_2, Hnone.
      by apply elem_of_elements. }
  split; [done|]. apply new_calls_app. simpl. by rewrite app_nil_r.
Qed.

(** What a call of the function made by [emit_after] leaves: the state
    after the call of the function when that raised, else the state after
    the emission that follows. *)
Lemma emit_after_state event func args kwargs w :
  let o := body (funcs func) args kwargs (_events w) (app_state w) in
  let first := Invocation func args kwargs (out_result o) (out_effects o) in
  let w1 := (call funcs func args kwargs w).2 in
  let r := wr_call (emit_after funcs event func) args kwargs w in
  trace w1 = trace w ++ [first]
  ∧ _events w1 = apply_all (out_effects o) (_events w)
  ∧ match out_result o with
    | Return returned =>
        r.2 = (emit funcs event [] [] w1).2
        ∧ r.1 = match (emit funcs event [] [] w1).1 with
                | Return _ => Return returned
                | Raise x => Raise x
                end
        ∧ new_calls w r.2 = first :: new_calls w1 r.2
    | Raise x => r = (Raise x, w1) ∧ new_calls w r.2 = [first]
    end.
Proof.
  intros o first w1 r. subst w1 r. rewrite emit_after_call, call_spec.
  fold o. cbn [snd]. set (w1 := World _ _ _).
  split; [done|]. split; [done|].
  destruct (out_result o) as [v|x] eqn:Ho.
  - pose proof (emit_trace event [] [] w1) as Htr.
    assert (new_calls w (emit funcs event [] [] w1).2
            = first :: new_calls w1 (emit funcs event [] [] w1).2) as Hnew.
    { apply new_calls_app. rewrite Htr. subst w1. simpl.
      by rewrite <-app_assoc. }
    by destruct (emit funcs event [] [] w1) as [[u|x] w2].
  - split; [done|]. by apply new_calls_app.
Qed.

(** X5.  When the function wrapped by [emit_after] returns and a
    subscriber then raises, the wrapper raises the exception of the
    subscriber and the value that the function returned is lost: the
    first call is the returning call of the function, the last call is the
    failing call, made without arguments, of a function that was
    subscribed to the event when the wrapped function had returned: a
    subscriber of the event before the call, when the wrapped function
    left the bus alone. *)
Theorem emit_after_raises_what_a_subscriber_raises
    event func args kwargs w returned i x :
  out_result (body (funcs func) args kwargs (_events w) (app_state w))
    = Return returned →
  i ∈ new_calls w (wr_call (emit_after funcs event func) args kwargs w).2 →
  inv_result i = Raise x →
  let r := wr_call (emit_after funcs event func) args kwargs w in
  r.1 = Raise x
  ∧ head (new_calls w r.2)
      = Some (Invocation func args kwargs (Return returned)
                (out_effects (body (funcs func) args kwargs (_events w)
                                (app_state w))))
  ∧ last (new_calls w r.2) = Some i
  ∧ inv_func i ∈ subscribers (call funcs func args kwargs w).2 event
  ∧ (never_uses_bus funcs func args kwargs →
     inv_func i ∈ subscribers w event)
  ∧ passed [] [] i.
Proof.
  intros Hb Hi Hx r. subst r. revert Hi.
  destruct (emit_after_state event func args kwargs w) as (_ & Hev1 & Hst).
  rewrite Hb in Hst. destruct Hst as (Hr2 & Hr1 & Hnew).
  rewrite Hnew, Hr1, Hr2. set (w1 := (call funcs func args kwargs w).2) in *.
  rewrite emit_unfold.
  destruct (subscriber_loop (λ _, true) event [] [] w1)
    as (cs & _ & -> & _ & Hargs & Hout).
  intros Hi.
  assert (i ∈ cs) as Hcs.
  { apply elem_of_cons in Hi as [->|Hin]; [|done]. by simpl in Hx. }
  destruct (guarded_loop_stops _ _ _ _ _ _ _ i x
              (NoDup_elements _) Hout Hcs Hx)
    as (Hr & Hin & _ & Hlast & _).
  apply elem_of_elements in Hin.
  rewrite Hr. split; [done|]. split; [done|].
  split; [by rewrite last_cons, Hlast|]. split; [done|]. split.
  - intros Hquiet. rewrite Hquiet in Hev1. simpl in Hev1.
    unfold subscribers in Hin |- *. by rewrite <-Hev1.
  - rewrite Forall_forall in Hargs. by apply Hargs.
Qed.

(** ** Enumerating the subscribers *)

(** X6.  [event_func_names(name)] never fails and calls nothing.  It
    returns one name for each subscriber of the event: as many names as
    there are subscribers, a name being in the list exactly when a
    subscriber has it.  No subscriber set changes. *)
Theorem event_func_names_lists_the_subscribers name_ w :
  let r := event_func_names funcs name_ w in
  ∃ names,
    r.1 = Return names
    ∧ length names = size (subscribers w name_)
    ∧ (∀ n, n ∈ names ↔
         ∃ func, func ∈ subscribers w name_ ∧ name (funcs func) = n)
    ∧ (∀ e, subscribers r.2 e = subscribers w e)
    ∧ app_state r.2 = app_state w
    ∧ trace r.2 = trace w.
Proof.
  intros r. subst r. rewrite event_func_names_spec.
  eexists. split; [done|]. split; [by rewrite length_fmap|].
  split; [|split; [|done]].
  - intros n. rewrite list_elem_of_fmap. unfold set_iter.
    split; intros (func & H1 & H2); exists func.
    + by apply elem_of_elements in H2.
    + by apply elem_of_elements in H1.
  - intros e. apply (vivify_subscribers name_ w e).
Qed.

Lemma collect_loop key bound (obj : gset fid) (fs out : list fid) w :
  iterate key bound obj (size obj) fs out
    (λ func out, ret (out ++ [func]) : M App (list fid)) w
    = (Return (out ++ fs), w).
Proof.
  revert out. induction fs as [|func fs IH]; intros out.
  - rewrite iterate_nothing. by rewrite app_nil_r.
  - cbn [iterate]. rewrite decide_True by done.
    unfold bind at 1. rewrite observed_ret.
    cbn [fst snd alias_sees_all foldl]. rewrite IH.
    by rewrite <-app_assoc.
Qed.

Lemma advance_done_result n w :
  (advance n GenDone w).1 = Return GenDone.
Proof.
  induction n as [|n IH]; [done|]. simpl. unfold bind. simpl. apply IH.
Qed.

Lemma advance_suspended_result n key bound (obj : gset fid)
    (rest : list fid) w :
  length rest < n →
  (advance n (GenSuspended key bound obj (size obj) rest) w).1
    = Return GenDone.
Proof.
  revert rest. induction n as [|n IH]; intros rest Hlen; [lia|].
  simpl. unfold bind, iter_next. rewrite decide_True by done.
  destruct rest as [|func rest]; simpl.
  - apply advance_done_result.
  - apply IH. simpl in Hlen. lia.
Qed.

(** X7.  Running the generator of [event_funcs(name)] to its end never
    fails and gives every subscriber of the event once and nothing else,
    in the order in which [event_func_names] lists the names; the only
    change to the state is that the entry of the event exists.  After
    more calls of [next] than there are subscribers the generator is
    finished. *)
Theorem event_funcs_yields_each_subscriber_once name_ w :
  let r := (g <- event_funcs name_ ;; collect g) w in
  ∃ fs,
    r = (Return fs, vivify name_ w)
    ∧ NoDup fs
    ∧ (∀ func, func ∈ fs ↔ func ∈ subscribers w name_)
    ∧ (event_func_names funcs name_ w).1
        = Return ((λ func, name (funcs func)) <$> fs)
    ∧ (∀ n, size (subscribers w name_) < n →
         (advance n (GenCreated name_) w).1 = Return GenDone).
Proof.
  intros r. subst r. exists (set_iter (subscribers w name_)).
  split; [|split; [|split; [|split]]].
  - unfold event_funcs, collect, bind, ret. simpl. unfold bind.
    rewrite getitem_spec. by rewrite collect_loop.
  - apply NoDup_elements.
  - intros func. apply elem_of_elements.
  - by rewrite event_func_names_spec.
  - intros [|n] Hn; [lia|].
    simpl. unfold bind at 1. simpl. unfold bind. rewrite getitem_spec.
    unfold iter_next. rewrite decide_True by done.
    change (size (subscribers w name_))
      with (length (set_iter (subscribers w name_))) in Hn.
    destruct (set_iter (subscribers w name_)) as [|func rest] eqn:Hs; simpl.
    + apply advance_done_result.
    + apply advance_suspended_result. simpl in Hn. lia.
Qed.

(** ** The count and the operations *)

Lemma count_over_names w (names : gset string) :
  dom (_events w) ⊆ names →
  subscribed_event_count w = (Return (sum_of_sizes w names), w).
Proof.
  intros Hdom. rewrite subscribed_event_count_spec. do 2 f_equal.
  symmetry. by apply sum_sizes_over_names.
Qed.

Lemma sum_of_sizes_split w (names : gset string) event :
  event ∈ names →
  sum_of_sizes w names
    = size (subscribers w event) + sum_of_sizes w (names ∖ {[event]}).
Proof.
  intros Hin. unfold sum_of_sizes.
  assert (names = {[event]} ∪ names ∖ {[event]}) as Hsplit.
  { apply set_eq. intros e.
    rewrite elem_of_union, elem_of_difference, elem_of_singleton.
    destruct (decide (e = event)) as [->|]; tauto. }
  rewrite Hsplit at 1.
  rewrite elements_union_singleton
    by (rewrite elem_of_difference, elem_of_singleton; tauto).
  by rewrite fmap_cons.
Qed.

Lemma sum_of_sizes_ext w w' (names : gset string) :
  (∀ e, e ∈ names → subscribers w' e = subscribers w e) →
  sum_of_sizes w' names = sum_of_sizes w names.
Proof.
  intros Hext. apply sum_list_fmap_ext_in. intros e He.
  by rewrite Hext by by apply elem_of_elements.
Qed.

(** The counts of two states that differ in the set of one event. *)
Lemma count_change w w' event :
  (∀ e, e ≠ event → subscribers w' e = subscribers w e) →
  ∃ n n',
    (subscribed_event_count w).1 = Return n
    ∧ (subscribed_event_count w').1 = Return n'
    ∧ n' + size (subscribers w event) = n + size (subscribers w' event).
Proof.
  intros Hext.
  set (names := dom (_events w) ∪ dom (_events w') ∪ {[event]}).
  exists (sum_of_sizes w names), (sum_of_sizes w' names).
  rewrite (count_over_names w names), (count_over_names w' names).
  - split; [done|]. split; [done|].
    assert (event ∈ names) as Hin.
    { apply elem_of_union_r. by apply elem_of_singleton. }
    rewrite (sum_of_sizes_split w names event Hin).
    rewrite (sum_of_sizes_split w' names event Hin).
    rewrite (sum_of_sizes_ext w w' (names ∖ {[event]})); [lia|].
    intros e [_ He]%elem_of_difference. apply Hext.
    by rewrite elem_of_singleton in He.
  - intros e He. apply elem_of_union_l. by apply elem_of_union_r.
  - intros e He. apply elem_of_union_l. by apply elem_of_union_l.
Qed.

Lemma count_ext w w' :
  (∀ e, subscribers w' e = subscribers w e) →
  (subscribed_event_count w').1 = (subscribed_event_count w).1.
Proof.
  intros Hext.
  set (names := dom (_events w) ∪ dom (_events w')).
  rewrite (count_over_names w names), (count_over_names w' names).
  - simpl. f_equal. by apply sum_of_sizes_ext.
  - intros e He. by apply elem_of_union_r.
  - intros e He. by apply elem_of_union_l.
Qed.

Lemma on_subscribers_ne event func w e :
  e ≠ event → subscribers (on funcs event func w).2 e = subscribers w e.
Proof.
  intros Hne. rewrite on_spec. unfold subscribers. simpl.
  by rewrite lookup_insert_ne.
Qed.

Lemma remove_subscriber_subscribers_ne event func_name w e :
  e ≠ event →
  subscribers (remove_subscriber funcs event func_name w).2 e
    = subscribers w e.
Proof.
  intros Hne. rewrite remove_subscriber_spec. unfold subscribers. simpl.
  by rewrite lookup_insert_ne.
Qed.

(** X8.  Subscribing a function that the event does not have yet makes
    the count one larger; subscribing one that it has leaves the count as
    it is. *)
Theorem on_adds_at_most_one_to_the_count event func w :
  ∃ n,
    (subscribed_event_count w).1 = Return n
    ∧ (subscribed_event_count (on funcs event func w).2).1
        = Return (if decide (func ∈ subscribers w event) then n else S n).
Proof.
  destruct (count_change w (on funcs event func w).2 event)
    as (n & n' & Hn & Hn' & Heq).
  { intros e He. by apply on_subscribers_ne. }
  exists n. split; [done|]. rewrite Hn'. f_equal.
  rewrite on_subscribers in Heq.
  destruct (decide (func ∈ subscribers w event)) as [Hin|Hout].
  - assert (subscribers w event ∪ {[func]} = subscribers w event) as Hsame.
    { apply set_eq. intros g. rewrite elem_of_union, elem_of_singleton.
      split; [intros [?| ->]|]; auto. }
    rewrite Hsame in Heq. lia.
  - rewrite size_union, size_singleton in Heq; [lia|].
    intros g Hg ->%elem_of_singleton. contradiction.
Qed.

(** X9.  [remove_subscriber(event, func_name)] makes the count smaller by
    the number of subscribers of the event that are called [func_name]. *)
Theorem remove_subscriber_lowers_the_count event func_name w :
  ∃ n n',
    (subscribed_event_count w).1 = Return n
    ∧ (subscribed_event_count
         (remove_subscriber funcs event func_name w).2).1 = Return n'
    ∧ n = n' + size (filter (λ func, name (funcs func) = func_name)
                       (subscribers w event)).
Proof.
  destruct (count_change w (remove_subscriber funcs event func_name w).2
              event) as (n & n' & Hn & Hn' & Heq).
  { intros e He. by apply remove_subscriber_subscribers_ne. }
  exists n, n'. split; [done|]. split; [done|].
  rewrite remove_subscriber_subscribers in Heq.
  assert (size (subscribers w event)
          = size (filter (λ func, name (funcs func) = func_name)
                    (subscribers w event))
            + size (not_named funcs func_name (subscribers w event)))
    as Hsize.
  { rewrite <-size_union by apply disjoint_filter_complement.
    f_equal. symmetry.
    apply (filter_union_complement_L
             (λ func, name (funcs func) = func_name) _ ∅). }
  lia.
Qed.

(** X10.  Removing the subscribers called [func_name] a second time
    changes nothing and does not fail. *)
Theorem remove_subscriber_twice_is_once event func_name w :
  let once := (remove_subscriber funcs event func_name w).2 in
  remove_subscriber funcs event func_name once = (Return tt, once).
Proof.
  intros once. rewrite (remove_subscriber_spec event func_name once).
  f_equal. subst once. rewrite remove_subscriber_subscribers.
  rewrite (not_named_all func_name
             (not_named funcs func_name (subscribers w event)))
    by (by intros func [? _]%elem_of_filter).
  rewrite remove_subscriber_spec. unfold set_events. simpl.
  by rewrite insert_insert_eq.
Qed.

(** X11.  Two subscriptions can be made in either order: the state they
    leave is the same, whether or not they are to the same event. *)
Theorem on_commutes event1 func1 event2 func2 w :
  (on funcs event2 func2 (on funcs event1 func1 w).2).2
    = (on funcs event1 func1 (on funcs event2 func2 w).2).2.
Proof.
  rewrite (on_spec event2 func2 (on funcs event1 func1 w).2).
  rewrite (on_spec event1 func1 (on funcs event2 func2 w).2).
  cbn [snd]. destruct (decide (event1 = event2)) as [->|Hne].
  - rewrite !on_subscribers, !on_spec. unfold set_events. simpl.
    rewrite !insert_insert_eq. do 2 f_equal.
    apply set_eq. intros g. rewrite !elem_of_union. tauto.
  - rewrite (on_subscribers_ne event1 func1 w event2) by done.
    rewrite (on_subscribers_ne event2 func2 w event1) by done.
    rewrite !on_spec. unfold set_events. simpl. f_equal.
    by rewrite insert_insert_ne.
Qed.

(** X12.  Subscribing a function and then removing the subscribers of its
    name leaves the state that the removal alone leaves: the function is
    not subscribed, and neither is any other function of that name. *)
Theorem on_then_remove_subscriber event func w :
  let func_name := name (funcs func) in
  let w' := (remove_subscriber funcs event func_name
               (on funcs event func w).2).2 in
  w' = (remove_subscriber funcs event func_name w).2
  ∧ ¬ (func ∈ subscribers w' event)
  ∧ (∀ g, g ∈ subscribers w' event → name (funcs g) ≠ func_name).
Proof.
  intros func_name w'.
  assert (w' = (remove_subscriber funcs event func_name w).2) as Heq.
  { subst w'. rewrite !remove_subscriber_spec. cbn [snd].
    rewrite on_subscribers, on_spec. unfold set_events. simpl.
    rewrite insert_insert_eq. do 2 f_equal.
    apply set_eq. intros g. unfold not_named.
    rewrite !elem_of_filter, elem_of_union, elem_of_singleton.
    split; [|tauto]. intros [Hname [Hin| ->]]; [done|].
    by destruct Hname. }
  split; [done|]. rewrite Heq, remove_subscriber_subscribers.
  unfold not_named. split.
  - rewrite elem_of_filter. by intros [Hname _].
  - intros g. rewrite elem_of_filter. by intros [Hname _].
Qed.

(** ** Histories *)

(** What an operation other than [on] and [remove_subscriber] does to the
    dictionary, when the functions it calls leave the bus alone, is at
    most a lookup. *)
Lemma exec_read_events o w :
  is_read o = true →
  Forall (λ i, inv_effects i = []) (new_calls w (exec funcs o w)) →
  _events (exec funcs o w) = _events w
  ∨ ∃ key, _events (exec funcs o w) = _events (vivify key w).
Proof.
  destruct o as [event c|event args kwargs|event func_names args kwargs
                |event func args kwargs|name_ nexts|name_| |event func_name];
    cbn [exec is_read]; intros Hread; try discriminate Hread.
  - intros Hquiet%effects_of_quiet. right. exists event.
    by rewrite emit_events, Hquiet.
  - intros Hquiet%effects_of_quiet. right. exists event.
    by rewrite emit_only_events, Hquiet.
  - destruct (emit_after_state event func args kwargs w)
      as (_ & Hev1 & Hst).
    destruct (out_result _) as [v|x].
    + destruct Hst as (-> & _ & ->). intros [Hq1 Hq2]%Forall_cons.
      simpl in Hq1. rewrite Hq1 in Hev1. simpl in Hev1.
      right. exists event.
      rewrite emit_events, (effects_of_quiet _ Hq2). simpl.
      unfold subscribers. by rewrite Hev1.
    + destruct Hst as (-> & ->). cbn [snd]. intros [Hq1 _]%Forall_cons.
      simpl in Hq1. rewrite Hq1 in Hev1. by left.
  - intros _. unfold event_funcs, bind, ret. destruct nexts as [|n].
    + by left.
    + right. exists name_. by rewrite advance_created.
  - intros _. right. exists name_. by rewrite event_func_names_spec.
  - intros _. by left.
Qed.

(** X13.  No history of operations deletes an entry of the dictionary,
    and a history makes entries only for the names of its operations and
    for the names that the functions it called have looked up or
    stored. *)
Theorem run_keeps_entries ops w :
  dom (_events w) ⊆ dom (_events (run funcs ops w))
  ∧ dom (_events (run funcs ops w))
      ⊆ dom (_events w) ∪ accessed ops
        ∪ touched (new_calls w (run funcs ops w))
  ∧ (Forall (λ i, inv_effects i = []) (new_calls w (run funcs ops w)) →
     dom (_events (run funcs ops w)) ⊆ dom (_events w) ∪ accessed ops).
Proof.
  destruct (run_hist ops w) as (cs & Htr & Hlo & Hhi).
  rewrite (new_calls_app _ _ _ Htr).
  split; [done|]. split; [done|]. intros Hquiet.
  rewrite (touched_no_effects _ Hquiet) in Hhi.
  intros e He. apply Hhi in He.
  rewrite elem_of_union, elem_of_empty in He. tauto.
Qed.

(** X14.  Only [on] and [remove_subscriber] change a subscriber set: every
    other operation, whether it returns or raises, leaves the subscribers
    of every event and the count as they were, when the functions it has
    called have left the bus alone. *)
Theorem read_operations_keep_the_subscribers o w :
  is_read o = true →
  Forall (λ i, inv_effects i = []) (new_calls w (exec funcs o w)) →
  (∀ e, subscribers (exec funcs o w) e = subscribers w e)
  ∧ (subscribed_event_count (exec funcs o w)).1
      = (subscribed_event_count w).1.
Proof.
  intros Hread Hquiet.
  assert (∀ e, subscribers (exec funcs o w) e = subscribers w e) as Hsame.
  { intros e. unfold subscribers at 1.
    destruct (exec_read_events o w Hread Hquiet) as [->|[key ->]]; [done|].
    apply (vivify_subscribers key w e). }
  split; [done|]. by apply count_ext.
Qed.

(** X15.  A name is in the list of [event_func_names] after a function of
    that name was subscribed, and is not in it after the subscribers of
    that name were removed. *)
Theorem event_func_names_after_on_and_remove event func func_name w :
  (∃ names,
     (event_func_names funcs event (on funcs event func w).2).1
       = Return names
     ∧ name (funcs func) ∈ names)
  ∧ (∃ names,
       (event_func_names funcs event
          (remove_subscriber funcs event func_name w).2).1 = Return names
       ∧ ¬ (func_name ∈ names)).
Proof.
  split; rewrite event_func_names_spec; eexists; (split; [done|]).
  - apply list_elem_of_fmap. exists func. split; [done|].
    apply elem_of_elements. rewrite on_subscribers.
    apply elem_of_union_r. by apply elem_of_singleton.
  - rewrite list_elem_of_fmap. intros (g & Hname & Hin).
    apply elem_of_elements in Hin.
    rewrite remove_subscriber_subscribers in Hin.
    apply elem_of_filter in Hin as [Hne _]. by apply Hne.
Qed.


(** X17.  The count is at least the size of every subscriber set, and it
    is zero exactly when no event has a subscriber; then an [emit] of any
    event calls nothing. *)
Theorem subscribed_event_count_bounds w :
  ∃ n,
    (subscribed_event_count w).1 = Return n
    ∧ (∀ e, (size (subscribers w e) ≤ n)%nat)
    ∧ (n = 0 ↔ ∀ e, subscribers w e = ∅)
    ∧ (n = 0 → ∀ event args kwargs,
         new_calls w (emit funcs event args kwargs w).2 = []).
Proof.
  exists (sum_of_sizes w (dom (_events w))).
  assert (∀ e, (size (subscribers w e)
                ≤ sum_of_sizes w (dom (_events w)))%nat) as Hbound.
  { intros e.
    pose proof (count_over_names w (dom (_events w))) as H1.
    pose proof (count_over_names w (dom (_events w) ∪ {[e]})) as H2.
    rewrite H1 in H2 by done.
    assert (sum_of_sizes w (dom (_events w))
            = sum_of_sizes w (dom (_events w) ∪ {[e]})) as ->.
    { assert (dom (_events w) ⊆ dom (_events w) ∪ {[e]}) as Hsub
        by (intros k Hk; by apply elem_of_union_l).
      specialize (H2 Hsub). by injection H2. }
    rewrite (sum_of_sizes_split w _ e); [lia|].
    apply elem_of_union_r. by apply elem_of_singleton. }
  assert (sum_of_sizes w (dom (_events w)) = 0 ↔
          ∀ e, subscribers w e = ∅) as Hzero.
  { split.
    - intros H0 e. apply leibniz_equiv, size_empty_iff.
      specialize (Hbound e). lia.
    - intros Hnone. unfold sum_of_sizes.
      rewrite (sum_list_fmap_ext_in _ (λ _, 0)).
      + rewrite sum_list_fmap_const. lia.
      + intros e _. by rewrite Hnone, size_empty. }
  split; [by rewrite (count_over_names w (dom (_events w)))|].
  split; [done|]. split; [done|].
  intros H0 event args kwargs. destruct Hzero as [Hzero _].
  rewrite emit_unfold. unfold set_iter.
  rewrite (Hzero H0 event), elements_empty, iterate_nothing.
  apply new_calls_app. by rewrite app_nil_r.
Qed.

(** ** [__str__] and [__repr__] *)

Lemma string_length_app (s t : string) :
  String.length (s +:+ t) = String.length s + String.length t.
Proof. induction s as [|a s IH]; [done|]. simpl. by rewrite IH. Qed.

Lemma string_app_inv_tail (s1 s2 t : string) :
  s1 +:+ t = s2 +:+ t → s1 = s2.
Proof.
  revert s2. induction s1 as [|a s1 IH]; intros [|b s2] Heq; [done|..].
  - apply (f_equal String.length) in Heq.
    rewrite !string_length_app in Heq. simpl in Heq. lia.
  - apply (f_equal String.length) in Heq.
    rewrite !string_length_app in Heq. simpl in Heq. lia.
  - simpl in Heq. injection Heq as -> Heq. f_equal. by apply IH.
Qed.

Lemma str_spec w :
  __str__ w =
    (Return
       (pretty (sum_of_sizes w (dom (_events w))) +:+ " subscribed events"),
     w).
Proof.
  unfold __str__, event_count, bind, ret.
  by rewrite (count_over_names w (dom (_events w))).
Qed.

Lemma repr_spec cls w :
  __repr__ cls w =
    (Return
       ("<" +:+ cls +:+ ": "
          +:+ pretty (sum_of_sizes w (dom (_events w))) +:+ ">"),
     w).
Proof.
  unfold __repr__, _cls_name, event_count, bind, ret.
  by rewrite (count_over_names w (dom (_events w))).
Qed.

(** X18.  [__str__] and [__repr__] never fail and leave the bus as it is.
    Their texts carry the count in decimal, so that two buses of the same
    class have the same text exactly when their counts are equal. *)
Theorem str_and_repr_tell_the_count cls w w' :
  (∃ n,
     (subscribed_event_count w).1 = Return n
     ∧ __str__ w = (Return (pretty n +:+ " subscribed events"), w)
     ∧ __repr__ cls w
         = (Return ("<" +:+ cls +:+ ": " +:+ pretty n +:+ ">"), w))
  ∧ ((__str__ w).1 = (__str__ w').1
     ↔ (subscribed_event_count w).1 = (subscribed_event_count w').1)
  ∧ ((__repr__ cls w).1 = (__repr__ cls w').1
     ↔ (subscribed_event_count w).1 = (subscribed_event_count w').1).
Proof.
  rewrite !str_spec, !repr_spec.
  rewrite (count_over_names w (dom (_events w))) by done.
  rewrite (count_over_names w' (dom (_events w'))) by done.
  cbn [fst].
  set (n := sum_of_sizes w (dom (_events w))).
  set (n' := sum_of_sizes w' (dom (_events w'))).
  split; [by exists n|]. split; split.
  - intros Heq. injection Heq as Heq.
    apply string_app_inv_tail in Heq. f_equal. by apply (inj pretty).
  - intros Heq. injection Heq as ->. done.
  - intros Heq. injection Heq as Heq.
    apply (inj (String.append cls)) in Heq.
    apply (inj (String.append ": ")) in Heq.
    apply string_app_inv_tail in Heq. f_equal. by apply (inj pretty).
  - intros Heq. injection Heq as ->. done.
Qed.

End facts.

(** * The small application, run *)

Lemma demo_never_raises func args kwargs :
  func ≠ 3%positive → never_raises demo_funcs func args kwargs.
Proof.
  intros Hne d a. unfold demo_funcs.
  destruct func as [[[?|?|]|[?|?|]|]|[[?|?|]|[?|?|]|]|];
    first [done | by eexists].
Qed.

Lemma demo_never_uses_bus func args kwargs :
  func ≠ 5%positive → func ≠ 6%positive → func ≠ 7%positive →
  never_uses_bus demo_funcs func args kwargs.
Proof.
  intros H5 H6 H7 d a. unfold demo_funcs.
  by destruct func as [[[?|?|]|[?|?|]|]|[[?|?|]|[?|?|]|]|].
Qed.

Lemma never_uses_bus_never_adds {App} (funcs : fid → callable App) func
    args kwargs event :
  never_uses_bus funcs func args kwargs →
  never_adds_to funcs func args kwargs event.
Proof. intros Hquiet d a g. rewrite Hquiet. apply not_elem_of_nil. Qed.

Lemma demo_bus_subscribers :
  subscribers demo_bus "tick" = {[1%positive; 2%positive]}.
Proof. by vm_compute. Qed.



Lemma demo_bus_well_behaved func args kwargs event :
  func ∈ subscribers demo_bus "tick" →
  never_raises demo_funcs func args kwargs
  ∧ never_adds_to demo_funcs func args kwargs event.
Proof.
  rewrite demo_bus_subscribers, elem_of_union, !elem_of_singleton.
  intros [-> | ->];
    (split; [by apply demo_never_raises
            |by apply never_uses_bus_never_adds, demo_never_uses_bus]).
Qed.

(** The scenario of the specification: [inc] and [log] on ["tick"]. *)
Example demo_emit_calls_both :
  inv_func <$> new_calls demo_bus (emit demo_funcs "tick" [] [] demo_bus).2
    = [2%positive; 1%positive]
  ∧ (event_count demo_bus).1 = Return 2.
Proof. by vm_compute. Qed.

Example demo_remove_inc :
  let w := run demo_funcs [OpRemove "tick" "inc"] demo_bus in
  inv_func <$> new_calls w (emit demo_funcs "tick" [] [] w).2
    = [2%positive]
  ∧ (event_count w).1 = Return 1.
Proof. by vm_compute. Qed.

Example boom_emit_stops :
  emit demo_funcs "tick" [] [] boom_bus
    = (Raise (AppError "ValueError"),
       {| _events := _events boom_bus; app_state := 0;
          trace := [Invocation 3 [] [] (Raise (AppError "ValueError")) []] |}).
Proof. by vm_compute. Qed.


(** A subscriber that removes a subscriber of the event being emitted:
    [remove_subscriber] stores a new set, the emission goes on over the
    old one and calls [log], which is no longer subscribed when [emit]
    returns. *)
Example remover_emit_goes_on :
  let r := emit demo_funcs "tick" [] [] remover_bus in
  r.1 = Return tt
  ∧ inv_func <$> new_calls remover_bus r.2
      = [7%positive; 2%positive; 1%positive]
  ∧ subscribers r.2 "tick" = {[1%positive; 7%positive]}
  ∧ _events r.2
      = _events (remove_subscriber demo_funcs "tick" "log" remover_bus).2.
Proof. by vm_compute. Qed.

(** A generator of [event_funcs] that a client holds iterates the stored
    set itself: after a subscription to the event its next [next] raises,
    and after a removal, which stores a new set, it goes on over the old
    one. *)
Example generator_after_on :
  let r1 := gen_next (GenCreated "tick") demo_bus in
  let g := GenSuspended "tick" true {[1%positive; 2%positive]} 2
             [1%positive] in
  r1 = (Return (Some 2%positive, g), demo_bus)
  ∧ _events (on demo_funcs "tick" 4%positive demo_bus).2
      = apply_all [Lookup "tick"; Add "tick" 4%positive] (_events demo_bus)
  ∧ gen_next (gen_sees_all [Lookup "tick"; Add "tick" 4%positive] g)
      (on demo_funcs "tick" 4%positive demo_bus).2
      = (Raise changed_size, (on demo_funcs "tick" 4%positive demo_bus).2).
Proof. by vm_compute. Qed.

Example generator_after_remove_subscriber :
  let g := GenSuspended "tick" true {[1%positive; 2%positive]} 2
             [1%positive] in
  let w := (remove_subscriber demo_funcs "tick" "inc" demo_bus).2 in
  _events w = apply_all [Lookup "tick"; Store "tick" {[2%positive]}]
                (_events demo_bus)
  ∧ (gen_next (gen_sees_all [Lookup "tick"; Store "tick" {[2%positive]}] g)
       w).1
      = Return (Some 1%positive,
                GenSuspended "tick" false {[1%positive; 2%positive]} 2 []).
Proof. by vm_compute. Qed.

(** ** The claims on the small application *)



Lemma emit_propagates_exception_witness :
  let i := Invocation 3 [] [] (Raise (AppError "ValueError")) [] in
  let r := emit demo_funcs "tick" [] [] boom_bus in
  inv_func i ∈ subscribers boom_bus "tick"
  ∧ r.1 = Raise (AppError "ValueError")
  ∧ last (new_calls boom_bus r.2) = Some i
  ∧ (∀ later,
       after (set_iter (subscribers boom_bus "tick")) (inv_func i) later →
       times_called later (new_calls boom_bus r.2) = 0).
Proof.
  apply (emit_propagates_exception demo_funcs "tick" [] [] boom_bus
           (Invocation 3 [] [] (Raise (AppError "ValueError")) [])
           (AppError "ValueError")).
  - rewrite boom_emit_stops. apply list_elem_of_here.
  - reflexivity.
Defined.



Lemma emit_after_calls_then_emits_witness :
  (let r := wr_call (emit_after demo_funcs "tick" 3%positive) [VStr "x"] []
              demo_bus in
   r = (Raise (AppError "ValueError"),
        (call demo_funcs 3%positive [VStr "x"] [] demo_bus).2)
   ∧ new_calls demo_bus r.2
       = [Invocation 3 [VStr "x"] [] (Raise (AppError "ValueError")) []])
  ∧ (let w1 := (call demo_funcs 2%positive [VStr "x"] [] demo_bus).2 in
     let r := wr_call (emit_after demo_funcs "tick" 2%positive) [VStr "x"] []
                demo_bus in
     r.1 = Return (VInt 0)
     ∧ new_calls demo_bus r.2
         = Invocation 2 [VStr "x"] [] (Return (VInt 0)) []
           :: new_calls w1 r.2
     ∧ invoked_once_each (subscribers w1 "tick") [] [] (new_calls w1 r.2)).
Proof.
  split.
  - pose proof (emit_after_calls_then_emits demo_funcs "tick" 3%positive
                  [VStr "x"] [] demo_bus) as H.
    cbv zeta in H. destruct H as (_ & _ & Hraise & _).
    apply (Hraise (AppError "ValueError")). reflexivity.
  - pose proof (emit_after_calls_then_emits demo_funcs "tick" 2%positive
                  [VStr "x"] [] demo_bus) as H.
    cbv zeta in H. destruct H as (_ & _ & _ & Hreturn).
    destruct (Hreturn (VInt 0) eq_refl)
      as (_ & Hnew & _ & _ & _ & Hnormal).
    destruct Hnormal as (Hret & Honce & _).
    { intros g Hg. by apply demo_bus_well_behaved. }
    cbv zeta. split; [done|]. split; [done|]. done.
Defined.

(** C4, as the claim has it, fails where the emission does not return:
    the wrapped function has returned, and what the caller gets is not its
    result but an exception, that of a subscriber that raises, or the
    [RuntimeError] of the set iterator when a subscriber, without raising,
    has subscribed a function to the event. *)
Lemma emit_after_loses_the_result :
  (let r := wr_call (emit_after demo_funcs "tick" 2%positive) [VStr "x"] []
              adders_bus in
   out_result (body (demo_funcs 2%positive) [VStr "x"] []
                 (_events adders_bus) (app_state adders_bus))
     = Return (VInt 0)
   ∧ Forall (λ i, is_return (inv_result i)) (new_calls adders_bus r.2)
   ∧ r.1 = Raise changed_size
   ∧ r.1 ≠ Return (VInt 0))
  ∧ (let r := wr_call (emit_after demo_funcs "tick" 2%positive) [VStr "x"] []
                boom_bus in
     out_result (body (demo_funcs 2%positive) [VStr "x"] []
                   (_events boom_bus) (app_state boom_bus))
       = Return (VInt 0)
     ∧ r.1 = Raise (AppError "ValueError")
     ∧ r.1 ≠ Return (VInt 0)).
Proof.
  split.
  - assert (wr_call (emit_after demo_funcs "tick" 2%positive) [VStr "x"] []
              adders_bus
            = (Raise changed_size,
               {| _events :=
                    <["tick" := {[4%positive; 5%positive; 6%positive]}]> ∅;
                  app_state := 0;
                  trace := [Invocation 2 [VStr "x"] [] (Return (VInt 0)) [];
                            Invocation 5 [] [] (Return VNone)
                              [Lookup "tick"; Add "tick" 4%positive]] |}))
      as -> by by vm_compute.
    split; [done|]. split; [by repeat constructor|]. done.
  - cbv zeta.
    assert ((wr_call (emit_after demo_funcs "tick" 2%positive) [VStr "x"] []
               boom_bus).1 = Raise (AppError "ValueError"))
      as -> by by vm_compute.
    done.
Qed.

Lemma on_subscribes_and_returns_wrapper_witness :
  (∃ wrapped,
     (on demo_funcs "tick" 1%positive (init 0)).1 = Return wrapped
     ∧ subscribers (on demo_funcs "tick" 1%positive (init 0)).2 "tick"
         = subscribers (init 0) "tick" ∪ {[1%positive]}
     ∧ wr_name wrapped = "inc"
     ∧ wr_wrapped wrapped = 1%positive
     ∧ (wr_call wrapped [] [] demo_bus).1 = Return VNone)
  ∧ on demo_funcs "tock" (Unhashable "Handler") demo_bus
      = (Raise (TypeError "unhashable type: 'Handler'"),
         vivify "tock" demo_bus).
Proof.
  split.
  - pose proof (on_subscribes_and_returns_wrapper demo_funcs "tick"
                  (Function 1%positive) (init 0)) as H.
    cbv zeta in H.
    destruct H as (wrapped & Hret & Hsubs & _ & _ & _ & Hname & Hwrapped
                   & Hcall).
    exists wrapped. split; [done|]. split; [done|]. split; [done|].
    split; [done|]. by destruct (Hcall [] [] demo_bus) as (_ & -> & _).
  - pose proof (on_subscribes_and_returns_wrapper demo_funcs "tock"
                  (Unhashable "Handler") demo_bus) as H.
    cbv zeta in H. by destruct H as [-> _].
Defined.

(** C5, as the claim has it, fails for a callable that is not hashable,
    such as an instance of a class that defines [__eq__] and [__call__]:
    [on] raises the [TypeError] of [set.add], and has then already made
    the entry of the event. *)
Lemma on_rejects_unhashable_callable :
  let r := on demo_funcs "tock" (Unhashable "Handler") (init 0) in
  r.1 = Raise (TypeError "unhashable type: 'Handler'")
  ∧ (∀ wrapped, r.1 ≠ Return wrapped)
  ∧ _events (init 0) !! "tock" = None
  ∧ _events r.2 !! "tock" = Some ∅
  ∧ subscribers r.2 "tock" = ∅.
Proof. cbv zeta. repeat split; by vm_compute. Qed.

(** C9, as the claim has it, fails on a new bus: the call of [event_funcs]
    returns a generator that has not run, and ["tick"] has no entry. *)
Lemma event_funcs_call_creates_no_entry :
  let w := init 0 in
  let r := event_funcs "tick" w in
  _events w !! "tick" = None
  ∧ r.1 = Return (GenCreated "tick")
  ∧ _events r.2 !! "tick" = None
  ∧ ¬ (_events r.2 !! "tick" = Some ∅).
Proof. by vm_compute. Qed.

Lemma unseen_event_gets_entry_on_access_witness :
  let created := set_events (<["tock" := ∅]> (_events demo_bus)) demo_bus in
  _events created !! "tock" = Some ∅
  ∧ event_funcs "tock" demo_bus = (Return (GenCreated "tock"), demo_bus)
  ∧ gen_next (GenCreated "tock") demo_bus = (Return (None, GenDone), created)
  ∧ event_func_names demo_funcs "tock" demo_bus = (Return [], created)
  ∧ (∀ args kwargs,
       emit demo_funcs "tock" args kwargs demo_bus = (Return tt, created))
  ∧ (∀ func_names args kwargs,
       emit_only demo_funcs "tock" func_names args kwargs demo_bus
         = (Return tt, created))
  ∧ (∀ func_name,
       remove_subscriber demo_funcs "tock" func_name demo_bus
         = (Return tt, created)).
Proof.
  apply (unseen_event_gets_entry_on_access demo_funcs "tock" demo_bus).
  vm_compute. reflexivity.
Defined.

Lemma remove_subscriber_frame_witness :
  let w := run demo_funcs [OpOn "tock" 1%positive] demo_bus in
  let w' := (remove_subscriber demo_funcs "tick" "inc" w).2 in
  _events w' !! "tock" = _events w !! "tock"
  ∧ subscribers w' "tock" = subscribers w "tock"
  ∧ size (subscribers w' "tock") = size (subscribers w "tock").
Proof.
  apply (remove_subscriber_frame demo_funcs "tick" "tock" "inc"
           (run demo_funcs [OpOn "tock" 1%positive] demo_bus)).
  discriminate.
Defined.

(** ** The further properties on the small application *)

Example demo_str_and_repr :
  (__str__ demo_bus).1 = Return "2 subscribed events"
  ∧ (__repr__ "EventBus" demo_bus).1 = Return "<EventBus: 2>"
  ∧ (__repr__ "EventBus" (init 0)).1 = Return "<EventBus: 0>".
Proof. by vm_compute. Qed.

Example boom_emit_only_stops :
  new_calls boom_bus
    (emit_only demo_funcs "tick" (NamesList ["log"; "boom"]) [] []
       boom_bus).2
    = [Invocation 3 [] [] (Raise (AppError "ValueError")) []].
Proof. by vm_compute. Qed.

Example boom_emit_after_trace :
  new_calls boom_bus
    (wr_call (emit_after demo_funcs "tick" 2%positive) [] [] boom_bus).2
    = [Invocation 2 [] [] (Return (VInt 0)) [];
       Invocation 3 [] [] (Raise (AppError "ValueError")) []].
Proof. by vm_compute. Qed.

Lemma emit_only_propagates_exception_witness :
  let i := Invocation 3 [] [] (Raise (AppError "ValueError")) [] in
  let func_names := NamesList ["log"; "boom"] in
  let r := emit_only demo_funcs "tick" func_names [] [] boom_bus in
  r.1 = Raise (AppError "ValueError")
  ∧ inv_func i ∈ subscribers boom_bus "tick"
  ∧ name (demo_funcs (inv_func i)) ∈ normalize_names func_names
  ∧ last (new_calls boom_bus r.2) = Some i
  ∧ (∀ later,
       after (set_iter (subscribers boom_bus "tick")) (inv_func i) later →
       times_called later (new_calls boom_bus r.2) = 0).
Proof.
  apply (emit_only_propagates_exception demo_funcs "tick"
           (NamesList ["log"; "boom"]) [] [] boom_bus
           (Invocation 3 [] [] (Raise (AppError "ValueError")) [])
           (AppError "ValueError")).
  - rewrite boom_emit_only_stops. apply list_elem_of_here.
  - reflexivity.
Defined.

Lemma emit_only_with_every_name_is_emit_witness :
  emit_only demo_funcs "tick" (NamesList ["inc"; "log"]) [VInt 7] []
    demo_bus
  = emit demo_funcs "tick" [VInt 7] [] demo_bus.
Proof.
  apply (emit_only_with_every_name_is_emit demo_funcs "tick"
           (NamesList ["inc"; "log"]) [VInt 7] [] demo_bus).
  intros func. rewrite demo_bus_subscribers, elem_of_union, !elem_of_singleton.
  intros [-> | ->]; simpl.
  - apply list_elem_of_here.
  - apply list_elem_of_further, list_elem_of_here.
Defined.

Lemma emit_only_without_match_calls_nothing_witness :
  emit_only demo_funcs "tick" (NamesList []) [] [] boom_bus
    = (Return tt, vivify "tick" boom_bus)
  ∧ new_calls boom_bus
      (emit_only demo_funcs "tick" (NamesList []) [] [] boom_bus).2 = [].
Proof.
  apply (emit_only_without_match_calls_nothing demo_funcs "tick"
           (NamesList []) [] [] boom_bus).
  intros func _. apply not_elem_of_nil.
Defined.

Lemma emit_after_raises_what_a_subscriber_raises_witness :
  let i := Invocation 3 [] [] (Raise (AppError "ValueError")) [] in
  let r := wr_call (emit_after demo_funcs "tick" 2%positive) [] []
             boom_bus in
  r.1 = Raise (AppError "ValueError")
  ∧ head (new_calls boom_bus r.2)
      = Some (Invocation 2 [] [] (Return (VInt 0))
                (out_effects (body (demo_funcs 2%positive) [] []
                                (_events boom_bus) (app_state boom_bus))))
  ∧ last (new_calls boom_bus r.2) = Some i
  ∧ inv_func i
      ∈ subscribers (call demo_funcs 2%positive [] [] boom_bus).2 "tick"
  ∧ (never_uses_bus demo_funcs 2%positive [] [] →
     inv_func i ∈ subscribers boom_bus "tick")
  ∧ passed [] [] i.
Proof.
  apply (emit_after_raises_what_a_subscriber_raises demo_funcs "tick"
           2%positive [] [] boom_bus (VInt 0)
           (Invocation 3 [] [] (Raise (AppError "ValueError")) [])
           (AppError "ValueError")).
  - reflexivity.
  - rewrite boom_emit_after_trace.
    apply list_elem_of_further, list_elem_of_here.
  - reflexivity.
Defined.

Lemma read_operations_keep_the_subscribers_witness :
  let o := OpEmit "tick" [] [] in
  (∀ e, subscribers (exec demo_funcs o demo_bus) e = subscribers demo_bus e)
  ∧ (subscribed_event_count (exec demo_funcs o demo_bus)).1
      = (subscribed_event_count demo_bus).1.
Proof.
  apply (read_operations_keep_the_subscribers demo_funcs
           (OpEmit "tick" [] []) demo_bus).
  - reflexivity.
  - assert (new_calls demo_bus (exec demo_funcs (OpEmit "tick" [] []) demo_bus)
            = [Invocation 2 [] [] (Return (VInt 0)) [];
               Invocation 1 [] [] (Return VNone) []]) as -> by by vm_compute.
    by repeat constructor.
Defined.

